(** * Cuckoo task queue, report cleanup and processing orchestrator

    A shallow embedding of

    - [lib/cuckoo/core/database.py]: the [Task] model and the [Database]
      queue operations ([add], [fetch], [process], [complete], ...);
    - [utils/process.py]: the per-task pipeline [process], with its
      reference-counted MongoDB/GridFS cleanup, and the scheduling loop
      [autoprocess].

    Python exceptions are made explicit with a [result] type; every
    external collaborator (storage engine, filesystem, clock, worker
    pool, processing stages) is an explicit argument. *)

From Stdlib Require Import ZArith Lia Ascii.
From stdpp Require Import base decidable option list sorting gmap strings.

Local Open Scope Z_scope.

(** ** Python outcomes *)

Inductive exn : Type :=
| AttributeError
| NameError (name : string)
| TypeError
| ValueError
| KeyboardInterrupt
| OperationalError   (* the storage layer failed (sqlalchemy.exc) *)
| StageError.

Inductive result (A : Type) : Type :=
| Return (a : A)
| Raise (e : exn).
Arguments Return {A} a.
Arguments Raise {A} e.

(** Code that updates a state [S] and may raise: the state reached is kept
    when an exception leaves the code. *)
Definition SE (S A : Type) : Type := S → result A * S.

Global Instance SE_ret {S} : MRet (SE S) := λ A a st, (Return a, st).
Global Instance SE_bind {S} : MBind (SE S) :=
  λ A B k c st,
    match c st with
    | (Return a, st') => k a st'
    | (Raise e, st') => (Raise e, st')
    end.

Definition throw {S A} (e : exn) : SE S A := λ st, (Raise e, st).
Definition lift {S A} (r : result A) : SE S A := λ st, (r, st).
Definition gets {S A} (f : S → A) : SE S A := λ st, (Return (f st), st).
Definition modify {S} (f : S → S) : SE S unit := λ st, (Return tt, f st).
Definition when {S} (b : bool) (c : SE S unit) : SE S unit :=
  if b then c else mret tt.

(** [for x in l: body(x)] *)
Fixpoint for_each {S A} (l : list A) (body : A → SE S unit) : SE S unit :=
  match l with
  | [] => mret tt
  | x :: l' => body x ;; for_each l' body
  end.

(** ** [lib/cuckoo/core/database.py] *)

Module TaskStore.

(** [datetime] values, as seconds on some fixed scale. *)
Definition datetime := Z.

(** A row of table [tasks]. *)
Record Task : Type := mkTask {
  id : Z;
  md5 : option string;
  file_path : string;
  timeout : Z;
  priority : Z;
  custom : option string;
  machine : option string;
  package : option string;
  options : option string;
  platform : option string;
  added_on : datetime;
  completed_on : option datetime;
  status : string
}.

(** [Enum("pending", "processing", "failure", "success", name="status_type")] *)
Definition status_type : list string :=
  ["pending"; "processing"; "failure"; "success"]%string.

(** A Python-side column default is either a plain value, fixed when the
    [Column(...)] expression is evaluated, or a callable that the ORM
    invokes at every insert. *)
Inductive column_default : Type :=
| DefaultScalar (v : datetime)
| DefaultCallable.

Definition eval_default (d : column_default) (clock : datetime) : datetime :=
  match d with
  | DefaultScalar v => v
  | DefaultCallable => clock
  end.

(** The mapped class, as left behind by the execution of the class body:
    the column defaults are the values of the default expressions. *)
Record TaskClass : Type := {
  added_on_default : column_default;
  status_default : string
}.

(** Executing [class Task(Base): ...] at clock reading [clock]:
    [default=datetime.now()] calls [now] right there and keeps the result. *)
Definition define_Task (clock : datetime) : TaskClass :=
  {| added_on_default := DefaultScalar clock;
     status_default := "pending" |}.

(** How the storage layer behaves during one call.  A call ends at the
    first statement that fails, so the layer either works throughout, or
    fails at the query the call makes ([session.query(Task).get(...)]; a
    call that makes none is not affected), or fails at
    [session.commit()]. *)
Inductive storage_behaviour : Type :=
| Works
| FailsAtQuery
| FailsAtCommit.

Global Instance storage_behaviour_eq_dec : EqDecision storage_behaviour.
Proof. solve_decision. Defined.

(** What lies outside the program at the time of one call: the clock, the
    filesystem, and the storage layer. *)
Record environment : Type := {
  clock : datetime;
  path_exists : string → bool;
  storage : storage_behaviour
}.

(** The storage layer works throughout the call: its commit goes
    through. *)
Definition commit_ok (env : environment) : bool :=
  bool_decide (storage env = Works).

(** The committed content of table [tasks], in row order. *)
Record Database : Type := { rows : list Task }.

Definition empty_db : Database := {| rows := [] |}.

(** Integer primary key: one more than the rows inserted so far (rows are
    never deleted by this module). *)
Definition next_id (db : Database) : Z := Z.of_nat (length (rows db)) + 1.

(** The row with primary key [task_id], if there is one. *)
Definition get (task_id : Z) (db : Database) : option Task :=
  List.find (λ t, Z.eqb (id t) task_id) (rows db).

(** [session.query(Task).get(task_id)]: the row or [None]; the error of a
    storage layer that fails at the query goes to the caller. *)
Definition query_get (env : environment) (task_id : Z) (db : Database)
  : result (option Task) :=
  match storage env with
  | FailsAtQuery => Raise OperationalError
  | _ => Return (get task_id db)
  end.

(** The storage layer refuses a row whose status is outside the column's
    enumeration. *)
Definition row_accepted (t : Task) : bool :=
  bool_decide (status t ∈ status_type).

(** [session.commit()] of the flushed rows [dirty], which would leave the
    table as [rows']; [None] is a commit that raised. *)
Definition commit (env : environment) (dirty : list Task) (rows' : list Task)
  : option Database :=
  if bool_decide (storage env ≠ FailsAtCommit) && forallb row_accepted dirty
  then Some {| rows := rows' |}
  else None.

Definition with_status (t : Task) (s : string) : Task :=
  mkTask (id t) (md5 t) (file_path t) (timeout t) (priority t) (custom t)
         (machine t) (package t) (options t) (platform t) (added_on t)
         (completed_on t) s.

Definition with_completed_on (t : Task) (d : datetime) : Task :=
  mkTask (id t) (md5 t) (file_path t) (timeout t) (priority t) (custom t)
         (machine t) (package t) (options t) (platform t) (added_on t)
         (Some d) (status t).

(** The row with primary key [task_id] replaced by [t']. *)
Definition store (task_id : Z) (t' : Task) (l : list Task) : list Task :=
  List.map (λ t, if Z.eqb (id t) task_id then t' else t) l.

(** [Database._set_status].  The query and the assignment to [.status]
    stand before the [try]: what they raise goes to the caller. *)
Definition _set_status (env : environment) (task_id : Z) (s : string)
    (db : Database) : result bool * Database :=
  match query_get env task_id db with
  | Raise e => (Raise e, db)
  | Return None => (Raise AttributeError, db)
  | Return (Some t) =>
      let t' := with_status t s in
      match commit env [t'] (store task_id t' (rows db)) with
      | Some db' => (Return true, db')
      | None => (Return false, db)
      end
  end.

(** The arguments of [Database.add]. *)
Record add_args : Type := {
  a_file_path : option string;
  a_md5 : option string;
  a_timeout : Z;
  a_package : option string;
  a_options : option string;
  a_priority : Z;
  a_custom : option string;
  a_machine : option string;
  a_platform : option string
}.

(** [add(file_path)]: every keyword argument at its default. *)
Definition add_defaults (file_path : option string) : add_args :=
  {| a_file_path := file_path; a_md5 := None; a_timeout := 0;
     a_package := None; a_options := None; a_priority := 1;
     a_custom := None; a_machine := None; a_platform := None |}.

(** [Database.add] *)
Definition add (cls : TaskClass) (env : environment) (args : add_args)
    (db : Database) : result (option Z) * Database :=
  match a_file_path args with
  | None => (Return None, db)
  | Some p =>
      if String.eqb p "" || negb (path_exists env p) then (Return None, db)
      else
        let task :=
          {| id := next_id db; md5 := a_md5 args; file_path := p;
             timeout := a_timeout args; priority := a_priority args;
             custom := a_custom args; machine := a_machine args;
             package := a_package args; options := a_options args;
             platform := a_platform args;
             added_on := eval_default (added_on_default cls) (clock env);
             completed_on := None;
             status := status_default cls |} in
        match commit env [task] (rows db ++ [task]) with
        | Some db' => (Return (Some (id task)), db')
        | None => (Return None, db)
        end
  end.

(** ["priority desc, added_on"] *)
Definition order_by_le (a b : Task) : Prop :=
  priority b < priority a ∨ (priority a = priority b ∧ added_on a ≤ added_on b).

Global Instance order_by_le_dec : RelDecision order_by_le.
Proof. intros a b; unfold order_by_le; apply _. Defined.

(** The row [t] put into the sorted rows [l], before the first row it
    does not come after. *)
Fixpoint order_by_insert (t : Task) (l : list Task) : list Task :=
  match l with
  | [] => [t]
  | x :: l' =>
      if decide (order_by_le t x) then t :: l else x :: order_by_insert t l'
  end.

(** [ORDER BY priority desc, added_on]: the rows sorted by the keys; rows
    that agree on the keys stay in the order in which they come. *)
Fixpoint order_by (l : list Task) : list Task :=
  match l with
  | [] => []
  | t :: l' => order_by_insert t (order_by l')
  end.

(** [Database.fetch].  SQL fixes the order of the result only up to the
    [ORDER BY] keys; [engine] is the order in which the storage engine
    presents the rows to the sort (the identity for an engine that scans
    the table in row order). *)
Definition fetch (engine : list Task → list Task) (db : Database)
  : option Task :=
  head (order_by
          (List.filter (λ t, String.eqb (status t) "pending")
                       (engine (rows db)))).

(** [Database.complete].  The query and the assignments stand before the
    [try]: what they raise goes to the caller. *)
Definition complete (env : environment) (task_id : Z) (success : bool)
    (db : Database) : result bool * Database :=
  match query_get env task_id db with
  | Raise e => (Raise e, db)
  | Return None => (Raise AttributeError, db)
  | Return (Some task) =>
      let task' :=
        with_completed_on
          (with_status task (if success then "success" else "failure")%string)
          (clock env) in
      match commit env [task'] (store task_id task' (rows db)) with
      | Some db' => (Return true, db')
      | None => (Return false, db)
      end
  end.

(** [Database.process] *)
Definition process (env : environment) (task_id : Z) (db : Database)
  : result bool * Database :=
  _set_status env task_id "processing" db.

(** [Database.view], with a storage layer that works. *)
Definition view (task_id : Z) (db : Database) : option Task := get task_id db.

(** The mutating calls, and the value each hands back. *)
Inductive call : Type :=
| Add (args : add_args)
| SetStatus (task_id : Z) (s : string)
| Process (task_id : Z)
| Complete (task_id : Z) (success : bool).

Inductive retval : Type :=
| PyNone
| PyInt (n : Z)
| PyBool (b : bool).


Definition map_result {A B} (f : A → B) (r : result A) : result B :=
  match r with Return a => Return (f a) | Raise e => Raise e end.

Definition run_call (cls : TaskClass) (env : environment) (c : call)
    (db : Database) : result retval * Database :=
  match c with
  | Add args =>
      let '(r, db') := add cls env args db in
      (map_result (λ o, match o with Some n => PyInt n | None => PyNone end) r, db')
  | SetStatus task_id s =>
      let '(r, db') := _set_status env task_id s db in (map_result PyBool r, db')
  | Process task_id =>
      let '(r, db') := process env task_id db in (map_result PyBool r, db')
  | Complete task_id success =>
      let '(r, db') := complete env task_id success db in (map_result PyBool r, db')
  end.

(** A sequence of calls, each in its own environment. *)
Fixpoint run_calls (cls : TaskClass) (h : list (environment * call))
    (db : Database) : Database :=
  match h with
  | [] => db
  | (env, c) :: h' => run_calls cls h' (snd (run_call cls env c db))
  end.



End TaskStore.

(** ** [utils/process.py]: the per-task pipeline [process] *)

Module Process.

(** BSON object ids. *)
Definition ObjectId := Z.

(** The parts of a document of collection [analysis] that [process]
    reads.  [target_file_id], [network_pcap_id] and
    [network_sorted_pcap_id] are [None] when the key is absent; an entry
    of [dropped] is [None] when it has no ["object_id"]. *)
Record analysis : Type := {
  _id : ObjectId;
  info_id : Z;
  target_file_id : option ObjectId;
  shots : list ObjectId;
  network_pcap_id : option ObjectId;
  network_sorted_pcap_id : option ObjectId;
  dropped : list (option ObjectId);
  behavior_processes : list (list ObjectId)
}.

(** The MongoDB database [mdata] with its GridFS bucket [fs]. *)
Record mongo : Type := {
  analysis_coll : list analysis;
  calls_coll : gset ObjectId;
  fs : gset ObjectId
}.

(** The document paths the cleanup queries. *)
Inductive field : Type :=
| TargetFileId      (* "target.file_id" *)
| Shots             (* "shots" *)
| NetworkPcapId     (* "network.pcap_id" *)
| NetworkSortedPcapId (* "network.sorted_pcap_id" *)
| DroppedObjectId.  (* "dropped.object_id" *)

Definition option_is (o : option ObjectId) (x : ObjectId) : bool :=
  match o with Some y => Z.eqb y x | None => false end.

(** Does document [a] match the query [{f: x}]?  On an array the query
    matches when some element does. *)
Definition matches (f : field) (x : ObjectId) (a : analysis) : bool :=
  match f with
  | TargetFileId => option_is (target_file_id a) x
  | Shots => existsb (Z.eqb x) (shots a)
  | NetworkPcapId => option_is (network_pcap_id a) x
  | NetworkSortedPcapId => option_is (network_sorted_pcap_id a) x
  | DroppedObjectId => existsb (λ d, option_is d x) (dropped a)
  end.

(** [mdata.analysis.find({f: x}).count()] *)
Definition find_count (f : field) (x : ObjectId) (m : mongo) : nat :=
  length (List.filter (matches f x) (analysis_coll m)).

(** [fs.delete(x)] *)
Definition fs_delete (x : ObjectId) (m : mongo) : mongo :=
  {| analysis_coll := analysis_coll m; calls_coll := calls_coll m;
     fs := fs m ∖ {[x]} |}.

(** [mdata.calls.remove({"_id": c})] *)
Definition calls_remove (c : ObjectId) (m : mongo) : mongo :=
  {| analysis_coll := analysis_coll m; calls_coll := calls_coll m ∖ {[c]};
     fs := fs m |}.

(** [mdata.analysis.remove({"_id": i})] *)
Definition analysis_remove (i : ObjectId) (m : mongo) : mongo :=
  {| analysis_coll := List.filter (λ a, negb (Z.eqb (_id a) i)) (analysis_coll m);
     calls_coll := calls_coll m; fs := fs m |}.

(** [if mdata.analysis.find({f: x}).count() == 1: fs.delete(x)] *)
Definition delete_if_single (f : field) (x : ObjectId) (m : mongo) : mongo :=
  if Nat.eqb (find_count f x m) 1 then fs_delete x m else m.

Definition delete_opt_if_single (f : field) (o : option ObjectId) (m : mongo)
  : mongo :=
  match o with Some x => delete_if_single f x m | None => m end.

(** The body of [for analysis in analyses]. *)
Definition clean_analysis (a : analysis) (m : mongo) : mongo :=
  let m := delete_opt_if_single TargetFileId (target_file_id a) m in
  let m := fold_left (λ m shot, delete_if_single Shots shot m) (shots a) m in
  let m := delete_opt_if_single NetworkPcapId (network_pcap_id a) m in
  let m := delete_opt_if_single NetworkSortedPcapId (network_sorted_pcap_id a) m in
  let m := fold_left (λ m drop, delete_opt_if_single DroppedObjectId drop m)
                     (dropped a) m in
  let m := fold_left (λ m calls, fold_left (λ m c, calls_remove c m) calls m)
                     (behavior_processes a) m in
  analysis_remove (_id a) m.

(** [mdata.analysis.find({"info.id": task_id})] *)
Definition find_info_id (task_id : Z) (m : mongo) : list analysis :=
  List.filter (λ a, Z.eqb (info_id a) task_id) (analysis_coll m).

(** [if analyses.count() > 0: for analysis in analyses: ...] on the
    documents found for the value [n] of [int(task_id)]. *)
Definition clean_analyses (n : Z) (m : mongo) : mongo :=
  let analyses := find_info_id n m in
  if Nat.ltb 0 (length analyses)
  then fold_left (λ m a, clean_analysis a m) analyses m
  else m.

(** *** Names *)

(** Objects a module-level name can be bound to, as far as [process]
    tells them apart. *)
Inductive pyobj : Type :=
| PyInt (n : Z)
| PyStr (s : string)
| PyObject.   (* a module, function, class, logger or configuration *)

(** The global names of [utils/process.py] once the script has run up to
    the call of [main()]: its imports, its definitions, and [cfg]. *)
Definition module_globals : gmap string pyobj :=
  list_to_map
    [("__name__", PyStr "__main__"); ("__file__", PyStr "process.py");
     ("__doc__", PyObject); ("__package__", PyObject);
     ("__builtins__", PyObject);
     ("os", PyObject); ("sys", PyObject); ("time", PyObject);
     ("logging", PyObject); ("argparse", PyObject); ("signal", PyObject);
     ("multiprocessing", PyObject); ("log", PyObject);
     ("ObjectId", PyObject); ("GridFS", PyObject); ("Config", PyObject);
     ("CUCKOO_ROOT", PyStr "/opt/cuckoo"); ("Database", PyObject);
     ("TASK_REPORTED", PyStr "reported");
     ("TASK_COMPLETED", PyStr "completed");
     ("TASK_FAILED_PROCESSING", PyStr "failed_processing");
     ("GetFeeds", PyObject); ("RunProcessing", PyObject);
     ("RunSignatures", PyObject); ("RunReporting", PyObject);
     ("init_modules", PyObject); ("MongoClient", PyObject);
     ("ConnectionFailure", PyObject);
     ("process", PyObject); ("init_worker", PyObject);
     ("autoprocess", PyObject); ("main", PyObject);
     ("cfg", PyObject)]%string.

(** A name that is not local to the function is looked up in the module. *)
Definition load_global (g : gmap string pyobj) (name : string) : result pyobj :=
  match g !! name with
  | Some v => Return v
  | None => Raise (NameError name)
  end.

(** [int(v)]; a string is taken not to be a numeral. *)
Definition py_int (v : pyobj) : result Z :=
  match v with
  | PyInt n => Return n
  | PyStr _ => Raise ValueError
  | PyObject => Raise TypeError
  end.

(** *** The pipeline *)

(** The external stages, in the order [process] runs them. *)
Inductive stage : Type :=
| RunProcessing_first
| GetFeeds
| RunProcessing
| RunSignatures
| RunReporting.

(** What the collaborators do during one call. *)
Record collaborators : Type := {
  stage_raises : stage → bool;
  mongo_enabled : bool;           (* Config("reporting").mongodb["enabled"] *)
  delete_original : bool;         (* cfg.cuckoo.delete_original *)
  delete_bin_copy : bool;         (* cfg.cuckoo.delete_bin_copy *)
  path_exists : string → bool     (* os.path.exists *)
}.

(** Everything [process] can change. *)
Record world : Type := {
  w_mongo : mongo;
  w_set_status : list (pyobj * string);  (* Database().set_status calls *)
  w_reports : nat;                       (* completed RunReporting runs *)
  w_unlinked : list string               (* os.unlink calls *)
}.

Definition run_stage (ext : collaborators) (s : stage) : SE world unit :=
  if stage_raises ext s then throw StageError
  else match s with
       | RunReporting =>
           modify (λ w, {| w_mongo := w_mongo w; w_set_status := w_set_status w;
                           w_reports := S (w_reports w);
                           w_unlinked := w_unlinked w |})
       | _ => mret tt
       end.

(** The cleanup of [process], from [analyses = ...find({"info.id":
    int(task_id)})] to the second [log.debug].  The function has no
    parameter or local variable [task_id], so the name is looked up among
    the globals [g] of the module, and the documents are touched only when
    [int(task_id)] has returned. *)
Definition cleanup (g : gmap string pyobj) : SE world unit :=
  v ← lift (load_global g "task_id");
  n ← lift (py_int v);
  modify (λ w, {| w_mongo := clean_analyses n (w_mongo w);
                  w_set_status := w_set_status w; w_reports := w_reports w;
                  w_unlinked := w_unlinked w |}) ;;
  _ ← lift (load_global g "task_id");
  mret tt.

Definition set_status (task_id : pyobj) (s : string) : SE world unit :=
  modify (λ w, {| w_mongo := w_mongo w;
                  w_set_status := w_set_status w ++ [(task_id, s)];
                  w_reports := w_reports w; w_unlinked := w_unlinked w |}).

(** [if flag and os.path.exists(p): os.unlink(p)] *)
Definition unlink_if (ext : collaborators) (flag : bool) (p : option string)
  : SE world unit :=
  if flag then
    match p with
    | None => throw TypeError
    | Some p =>
        when (path_exists ext p)
          (modify (λ w, {| w_mongo := w_mongo w; w_set_status := w_set_status w;
                           w_reports := w_reports w;
                           w_unlinked := w_unlinked w ++ [p] |}))
    end
  else mret tt.

(** Modelled from the spec: the value of [TASK_REPORTED], which
    [lib/cuckoo/core/database.py] does not define; the spec names the
    status [reported]. *)
Definition TASK_REPORTED : string := "reported".

(** [process(target, copy_path, task, report, auto)] run with module
    globals [g]. *)
Definition process (g : gmap string pyobj) (ext : collaborators)
    (target copy_path : option string) (report auto : bool) : SE world unit :=
  run_stage ext RunProcessing_first ;;
  run_stage ext GetFeeds ;;
  run_stage ext RunProcessing ;;
  run_stage ext RunSignatures ;;
  when report (
    when (mongo_enabled ext) (cleanup g) ;;
    run_stage ext RunReporting ;;
    v ← lift (load_global g "task_id");
    set_status v TASK_REPORTED ;;
    when auto (
      _ ← lift (load_global g "cfg");
      unlink_if ext (delete_original ext) target ;;
      _ ← lift (load_global g "cfg");
      unlink_if ext (delete_bin_copy ext) copy_path)).

End Process.

(** ** [utils/process.py]: the scheduling loop [autoprocess] *)

Module Autoprocess.

(** Modelled from the spec: the status constant [TASK_COMPLETED], which
    [autoprocess] imports from [lib.cuckoo.core.database] and which the
    file of that name does not define; the spec names the statuses
    [completed] and [failed_processing]. *)
Definition TASK_COMPLETED : string := "completed".

(** Modelled from the spec: the status constant [TASK_FAILED_PROCESSING],
    missing from [lib/cuckoo/core/database.py] as well. *)
Definition TASK_FAILED_PROCESSING : string := "failed_processing".

(** Modelled from the spec: a task as [list_tasks] returns it, with the
    attributes the loop reads ([id], [category], [target], [sample_id])
    and those the query depends on. *)
Record task : Type := {
  task_id : Z;
  task_category : string;
  task_target : string;
  task_sample_id : Z;
  task_status : string;
  task_completed_on : Z
}.

(** The task [t] with its status set to [s]. *)
Definition with_status (t : task) (s : string) : task :=
  {| task_id := task_id t; task_category := task_category t;
     task_target := task_target t; task_sample_id := task_sample_id t;
     task_status := s; task_completed_on := task_completed_on t |}.

(** Modelled from the spec: [Database.set_status(id, status)], the generic
    status setter; it returns false and changes nothing when the commit
    fails. *)
Definition set_status (commit_ok : bool) (i : Z) (s : string) (db : list task)
  : bool * list task :=
  if commit_ok
  then (true, List.map (λ t, if Z.eqb (task_id t) i then with_status t s else t) db)
  else (false, db).

(** Modelled from the spec: [Database.view(id)]. *)
Definition view (i : Z) (db : list task) : option task :=
  List.find (λ t, Z.eqb (task_id t) i) db.

(** ["completed_on asc"] *)
Definition completed_on_le (a b : task) : Prop :=
  task_completed_on a ≤ task_completed_on b.

Global Instance completed_on_le_dec : RelDecision completed_on_le.
Proof. intros a b; unfold completed_on_le; apply _. Defined.

(** Modelled from the spec: [Database.list_tasks(status, limit, order_by)]
    as the loop calls it: the tasks in [status], by completion time
    ascending, at most [limit] of them. *)
Definition list_tasks (s : string) (limit : Z) (db : list task) : list task :=
  take (Z.to_nat limit)
       (merge_sort completed_on_le
          (List.filter (λ t, String.eqb (task_status t) s) db)).

(** An element of [pending_results]: [(ar, tid, target, copy_path)].  The
    [AsyncResult] is known by the number of the pool job it stands for. *)
Record submission : Type := {
  ar : nat;
  tid : Z;
  target : string;
  copy_path : option string
}.

Global Instance submission_eq_dec : EqDecision submission.
Proof. solve_decision. Defined.

(** What an [AsyncResult] reports. *)
Inductive ar_status : Type :=
| NotReady      (* ready() is false *)
| Succeeded     (* ready() and successful() *)
| Failed.       (* ready() and not successful(): get() raises *)

(** A call [pool.apply_async(process, args, kwargs)]. *)
Record job : Type := {
  job_target : string;
  job_copy_path : option string;
  job_task : task
}.

(** [cfg.cuckoo.max_analysis_count], the argument [parallel], and
    [CUCKOO_ROOT]. *)
Record config : Type := {
  maxcount : Z;
  parallel : Z;
  CUCKOO_ROOT : string
}.

(** What lies outside the loop during one pass. *)
Record environment : Type := {
  interrupt : bool;                  (* SIGINT arrives in this pass *)
  others : list task → list task;    (* writes of the other processes since the last pass *)
  ar_state : nat → ar_status;        (* the pool's results *)
  commit_ok : Z → bool;              (* does the commit of set_status(tid, ..) go through *)
  sample_sha256 : Z → option string  (* db.view_sample(sample_id).sha256; None when there is no such sample *)
}.

(** The variables of [autoprocess], the pool and the task store. *)
Record state : Type := {
  count : Z;
  pending_results : list submission;
  pool : list job;
  db : list task
}.

Definition set_count (n : Z) (st : state) : state :=
  {| count := n; pending_results := pending_results st; pool := pool st; db := db st |}.
Definition set_pending_results (l : list submission) (st : state) : state :=
  {| count := count st; pending_results := l; pool := pool st; db := db st |}.
Definition set_pool (p : list job) (st : state) : state :=
  {| count := count st; pending_results := pending_results st; pool := p; db := db st |}.
Definition set_db (d : list task) (st : state) : state :=
  {| count := count st; pending_results := pending_results st; pool := pool st; db := d |}.

(** [l.remove(x)]: the first element equal to [x] goes; [ValueError] when
    there is none. *)
Fixpoint list_remove (x : submission) (l : list submission)
  : result (list submission) :=
  match l with
  | [] => Raise ValueError
  | y :: l' =>
      if decide (y = x) then Return l'
      else match list_remove x l' with
           | Return r => Return (y :: r)
           | Raise e => Raise e
           end
  end.

(** [pending_results.remove(r)] *)
Definition pending_remove (r : submission) : SE state unit :=
  l ← gets pending_results;
  l' ← lift (list_remove r l);
  modify (set_pending_results l').

(** [db.set_status(tid, status)], the returned flag dropped. *)
Definition db_set_status (env : environment) (i : Z) (s : string)
  : SE state unit :=
  modify (λ st, set_db (snd (set_status (commit_ok env i) i s (db st))) st).

(** The body of the maintenance loop, for one element of the snapshot. *)
Definition reap_one (env : environment) (r : submission) : SE state unit :=
  match ar_state env (ar r) with
  | NotReady => mret tt
  | Succeeded => pending_remove r
  | Failed => db_set_status env (tid r) TASK_FAILED_PROCESSING ;; pending_remove r
  end.

(** [for ar, tid, target, copy_path in list(pending_results): ...] *)
Definition reap (env : environment) : SE state unit :=
  snapshot ← gets pending_results;
  for_each snapshot (reap_one env).

(** [task.id in [tid for ar, tid, target, copy_path in pending_results]] *)
Definition in_flight (i : Z) (l : list submission) : bool :=
  existsb (Z.eqb i) (List.map tid l).

(** [b.startswith('/')] *)
Definition starts_with_slash (b : string) : bool :=
  match b with
  | String c _ => Ascii.eqb c "/"
  | EmptyString => false
  end.

(** [path.endswith('/')] *)
Fixpoint ends_with_slash (path : string) : bool :=
  match path with
  | EmptyString => false
  | String c rest =>
      match rest with
      | EmptyString => Ascii.eqb c "/"
      | String _ _ => ends_with_slash rest
      end
  end.

(** One step of [os.path.join] ([posixpath.join]): an absolute component
    replaces what was joined so far; otherwise the component is appended,
    after a separator unless the path is empty or ends with one. *)
Definition path_join (path b : string) : string :=
  if starts_with_slash b then b
  else if String.eqb path "" || ends_with_slash path then path +:+ b
  else path +:+ "/" +:+ b.

(** [os.path.join(CUCKOO_ROOT, "storage", "binaries", sha256)] *)
Definition binary_path (cfg : config) (sha256 : string) : string :=
  path_join (path_join (path_join (CUCKOO_ROOT cfg) "storage") "binaries")
            sha256.

(** [pool.apply_async(process, args, kwargs)]: the job is queued and the
    handle of the new job returned. *)
Definition apply_async (j : job) : SE state nat :=
  n ← gets (λ st, length (pool st));
  modify (λ st, set_pool (pool st ++ [j]) st) ;;
  mret n.

(** The submission of [t]: the body of [for task in tasks] past the
    [continue]. *)
Definition submit (cfg : config) (env : environment) (t : task)
  : SE state unit :=
  cp ← (if String.eqb (task_category t) "file"
        then match sample_sha256 env (task_sample_id t) with
             | Some sha => mret (Some (binary_path cfg sha))
             | None => throw AttributeError
             end
        else mret None);
  h ← apply_async {| job_target := task_target t; job_copy_path := cp;
                     job_task := t |};
  modify (λ st, set_pending_results
                  (pending_results st ++
                   [{| ar := h; tid := task_id t; target := task_target t;
                       copy_path := cp |}]) st) ;;
  modify (λ st, set_count (count st + 1) st).

(** One pass through the body of the [while] loop.  The sleeps are not
    represented. *)
Definition iteration (cfg : config) (env : environment) : SE state unit :=
  if interrupt env then throw KeyboardInterrupt
  else
    modify (λ st, set_db (others env (db st)) st) ;;
    reap env ;;
    pending ← gets pending_results;
    if Z.leb (parallel cfg) (Z.of_nat (length pending)) then mret tt
    else
      tasks ← gets (λ st, list_tasks TASK_COMPLETED (parallel cfg) (db st));
      match List.find (λ t, negb (in_flight (task_id t) pending)) tasks with
      | Some t => submit cfg env t
      | None => mret tt
      end.

(** [count < maxcount or not maxcount] *)
Definition guard (cfg : config) (st : state) : bool :=
  Z.ltb (count st) (maxcount cfg) || Z.eqb (maxcount cfg) 0.

(** How the [while] loop stands after the passes described by a list of
    environments. *)
Inductive outcome : Type :=
| Finished (st : state)             (* the loop condition became false *)
| Interrupted (st : state)          (* KeyboardInterrupt: pool.terminate(), re-raised *)
| Crashed (e : exn) (st : state)    (* any other exception: traceback printed *)
| Looping (st : state).             (* the loop is about to start its next pass *)

Fixpoint loop (cfg : config) (envs : list environment) (st : state) : outcome :=
  if guard cfg st then
    match envs with
    | [] => Looping st
    | env :: envs' =>
        match iteration cfg env st with
        | (Return _, st') => loop cfg envs' st'
        | (Raise KeyboardInterrupt, st') => Interrupted st'
        | (Raise e, st') => Crashed e st'
        end
    end
  else Finished st.

Definition initial (db0 : list task) : state :=
  {| count := 0; pending_results := []; pool := []; db := db0 |}.

(** [autoprocess(parallel)] from pool creation to the end of the loop. *)
Definition autoprocess (cfg : config) (envs : list environment)
    (db0 : list task) : outcome :=
  loop cfg envs (initial db0).

Definition final (o : outcome) : state :=
  match o with
  | Finished st | Interrupted st | Crashed _ st | Looping st => st
  end.

Definition finished (o : outcome) : bool :=
  match o with Finished _ => true | _ => false end.

End Autoprocess.

(** ** Auxiliary notions and sample stores for the task store *)

Module TaskStoreSamples.
Import TaskStore.

(** An environment at clock reading [t] where every path exists and the
    storage layer works. *)
Definition env_at (t : datetime) : environment :=
  {| clock := t; path_exists := λ _, true; storage := Works |}.



(** The class is defined at clock reading 100; two samples are added
    with default priority, at clock readings 200 and 300. *)
Definition two_adds : Database :=
  run_calls (define_Task 100)
    [(env_at 200, Add (add_defaults (Some "/tmp/a"%string)));
     (env_at 300, Add (add_defaults (Some "/tmp/b"%string)))]
    empty_db.

(** [add(file_path, priority=n)] *)
Definition add_with_priority (file_path : string) (n : Z) : add_args :=
  {| a_file_path := Some file_path; a_md5 := None; a_timeout := 0;
     a_package := None; a_options := None; a_priority := n;
     a_custom := None; a_machine := None; a_platform := None |}.

(** Three samples are added with priorities 1, 1 and 5. *)
Definition scenario_A : Database :=
  run_calls (define_Task 100)
    [(env_at 200, Add (add_with_priority "/tmp/a" 1));
     (env_at 300, Add (add_with_priority "/tmp/b" 1));
     (env_at 400, Add (add_with_priority "/tmp/c" 5))]
    empty_db.

(** One sample is added, taken for processing and completed. *)
Definition one_completed : Database :=
  run_calls (define_Task 100)
    [(env_at 200, Add (add_defaults (Some "/tmp/a"%string)));
     (env_at 210, Process 1);
     (env_at 220, Complete 1 true)]
    empty_db.



(** The rows after a mutating call: untouched, one row appended by [add],
    or the addressed row rewritten in place. *)
Inductive rows_step (cls : TaskClass) (env : environment) (db : Database)
  : list Task → Prop :=
| rows_same : rows_step cls env db (rows db)
| rows_added args p :
    a_file_path args = Some p →
    rows_step cls env db
      (rows db ++
       [{| id := next_id db; md5 := a_md5 args; file_path := p;
           timeout := a_timeout args; priority := a_priority args;
           custom := a_custom args; machine := a_machine args;
           package := a_package args; options := a_options args;
           platform := a_platform args;
           added_on := eval_default (added_on_default cls) (clock env);
           completed_on := None; status := status_default cls |}])
| rows_status i t s :
    t ∈ rows db → s ∈ status_type →
    rows_step cls env db (store i (with_status t s) (rows db))
| rows_completed i t s :
    t ∈ rows db → s ∈ status_type →
    rows_step cls env db
      (store i (with_completed_on (with_status t s) (clock env)) (rows db)).

End TaskStoreSamples.

(** ** Auxiliary notions and a sample store for the pipeline function *)

Module ProcessSamples.
Import Process.

(** Does [a] hold [x] under any of the document paths?  This is the
    notion of reference of the specification, which does not tell the
    paths apart. *)
Definition references (x : ObjectId) (a : analysis) : bool :=
  matches TargetFileId x a || matches Shots x a || matches NetworkPcapId x a
  || matches NetworkSortedPcapId x a || matches DroppedObjectId x a.

(** The number of analysis records that reference [x]. *)
Definition referencing_analyses (x : ObjectId) (m : mongo) : nat :=
  length (List.filter (references x) (analysis_coll m)).

(** The analysis of task 7: its target sample is blob 100. *)
Definition analysis_7 : analysis :=
  {| _id := 1; info_id := 7; target_file_id := Some 100; shots := [101];
     network_pcap_id := Some 102; network_sorted_pcap_id := None;
     dropped := [Some 103; None]; behavior_processes := [[500; 501]; [502]] |}.

(** The analysis of task 8: the sample it ran dropped a file with the
    content of blob 100, and it shares screenshot 101 with task 7. *)
Definition analysis_8 : analysis :=
  {| _id := 2; info_id := 8; target_file_id := Some 200; shots := [101];
     network_pcap_id := None; network_sorted_pcap_id := None;
     dropped := [Some 100]; behavior_processes := [[510]] |}.

Definition shared_store : mongo :=
  {| analysis_coll := [analysis_7; analysis_8];
     calls_coll := {[500; 501; 502; 510]};
     fs := {[100; 101; 102; 103; 200]} |}.

(** A call in which no stage raises and MongoDB reporting is on. *)
Definition smooth : collaborators :=
  {| stage_raises := λ _, false; mongo_enabled := true;
     delete_original := false; delete_bin_copy := false;
     path_exists := λ _, true |}.

Definition world_of (m : mongo) : world :=
  {| w_mongo := m; w_set_status := []; w_reports := 0; w_unlinked := [] |}.

End ProcessSamples.

(** ** Closed forms and sample runs of the scheduling loop *)

Module AutoprocessSamples.
Import Autoprocess.

Definition not_ready (env : environment) (r : submission) : bool :=
  match ar_state env (ar r) with NotReady => true | _ => false end.

(** Is [i] the task of a failed submission of [l] whose status update is
    committed? *)
Definition failed_in (env : environment) (l : list submission) (i : Z) : bool :=
  existsb (λ r, match ar_state env (ar r) with
                | Failed => commit_ok env (tid r) && Z.eqb (tid r) i
                | _ => false
                end) l.

(** The store after the status updates of one maintenance loop. *)
Definition mark_failed (env : environment) (l : list submission)
    (d : list task) : list task :=
  List.map (λ t, if failed_in env l (task_id t)
                 then with_status t TASK_FAILED_PROCESSING else t) d.

(** The in-flight list is within the pool size and names no task twice. *)
Definition inflight_ok (cfg : config) (st : state) : Prop :=
  Z.of_nat (length (pending_results st)) ≤ parallel cfg ∧
  NoDup (tid <$> pending_results st).

Definition completed_task (i : Z) (done_at : Z) : task :=
  {| task_id := i; task_category := "url"; task_target := "http://example.org/";
     task_sample_id := 0; task_status := TASK_COMPLETED;
     task_completed_on := done_at |}.

(** Three tasks wait for their reports. *)
Definition three_completed : list task :=
  [completed_task 1 10; completed_task 2 20; completed_task 3 30].

(** Two workers, at most two submissions. *)
Definition two_of_three : config :=
  {| maxcount := 2; parallel := 2; CUCKOO_ROOT := "/opt/cuckoo" |}.

(** A pass during which no worker has finished and nothing else happens. *)
Definition quiet : environment :=
  {| interrupt := false; others := λ d, d; ar_state := λ _, NotReady;
     commit_ok := λ _, true; sample_sha256 := λ _, None |}.

(** A pass at which the job of handle [h] has failed. *)
Definition failing (h : nat) : environment :=
  {| interrupt := false; others := λ d, d;
     ar_state := λ n, if Nat.eqb n h then Failed else NotReady;
     commit_ok := λ _, true; sample_sha256 := λ _, None |}.

(** A pass at which the job of handle [h] has failed and the store does
    not commit a status update. *)
Definition failing_uncommitted (h : nat) : environment :=
  {| interrupt := false; others := λ d, d;
     ar_state := λ n, if Nat.eqb n h then Failed else NotReady;
     commit_ok := λ _, false; sample_sha256 := λ _, None |}.

(** Tasks 1 and 2 are in flight. *)
Definition two_in_flight : state :=
  {| count := 2;
     pending_results :=
       [{| ar := 0%nat; tid := 1; target := "http://example.org/"; copy_path := None |};
        {| ar := 1%nat; tid := 2; target := "http://example.org/"; copy_path := None |}];
     pool :=
       [{| job_target := "http://example.org/"; job_copy_path := None;
           job_task := completed_task 1 10 |};
        {| job_target := "http://example.org/"; job_copy_path := None;
           job_task := completed_task 2 20 |}];
     db := three_completed |}.

(** The state in the middle of a pass, after the writes of the other
    processes and the maintenance loop. *)
Definition after_reap (env : environment) (st : state) : state :=
  {| count := count st;
     pending_results := List.filter (not_ready env) (pending_results st);
     pool := pool st;
     db := mark_failed env (pending_results st) (others env (db st)) |}.

(** The state after the submission of [t] with copy path [cp]. *)
Definition after_submit (env : environment) (st : state) (t : task)
    (cp : option string) : state :=
  {| count := count st + 1;
     pending_results :=
       pending_results (after_reap env st) ++
       [{| ar := length (pool st); tid := task_id t; target := task_target t;
           copy_path := cp |}];
     pool := pool st ++ [{| job_target := task_target t; job_copy_path := cp;
                            job_task := t |}];
     db := db (after_reap env st) |}.

(** The ways a pass can go. *)
Inductive pass (cfg : config) (env : environment) (st : state)
  : result unit → state → Prop :=
| pass_interrupted :
    interrupt env = true → pass cfg env st (Raise KeyboardInterrupt) st
| pass_idle :
    pass cfg env st (Return tt) (after_reap env st)
| pass_no_sample :
    Z.of_nat (length (pending_results (after_reap env st))) < parallel cfg →
    pass cfg env st (Raise AttributeError) (after_reap env st)
| pass_submit t cp :
    Z.of_nat (length (pending_results (after_reap env st))) < parallel cfg →
    in_flight (task_id t) (pending_results (after_reap env st)) = false →
    pass cfg env st (Return tt) (after_submit env st t cp).

(** [count] counts the jobs given to the pool and is within [maxcount]. *)
Definition counted (cfg : config) (st : state) : Prop :=
  count st = Z.of_nat (length (pool st)) ∧ count st ≤ maxcount cfg.

(** [count] is within [maxcount], and something is in flight once it
    has reached it. *)
Definition exits_loaded (cfg : config) (st : state) : Prop :=
  count st ≤ maxcount cfg ∧ (count st = maxcount cfg → pending_results st ≠ []).

End AutoprocessSamples.
(** ** [lib/cuckoo/core/database.py]: the listing queries *)

Module TaskStoreQueries.
Import TaskStore.

(** [query.limit(n)]; [limit(None)] leaves the query without a limit. *)
Definition limit_rows {A} (limit : option nat) (l : list A) : list A :=
  match limit with
  | Some n => take n l
  | None => l
  end.

Section Collation.

(** How the storage engine compares two values of the [status] column; it
    differs between engines (declaration order for a native enumeration,
    the collation of the text for a string column). *)
Variable status_leb : string → string → bool.

(** ["status, added_on, id desc"] *)
Definition list_order_le (a b : Task) : Prop :=
  (status_leb (status a) (status b) = true ∧
   status_leb (status b) (status a) = false) ∨
  (status_leb (status a) (status b) = true ∧
   status_leb (status b) (status a) = true ∧
   (added_on a < added_on b ∨ (added_on a = added_on b ∧ id b ≤ id a))).

Global Instance list_order_le_dec : RelDecision list_order_le.
Proof. intros a b; unfold list_order_le; apply _. Defined.

(** [Database.list] *)
Definition Database_list (engine : list Task → list Task)
    (limit : option nat) (db : Database) : list Task :=
  limit_rows limit (merge_sort list_order_le (engine (rows db))).

(** [Database.search]; [md5] is [None] for a search with [None], which the
    ORM renders as a test for NULL. *)
Definition search (engine : list Task → list Task) (h : option string)
    (db : Database) : list Task :=
  merge_sort list_order_le
    (List.filter (λ t, bool_decide (md5 t = h)) (engine (rows db))).

End Collation.

(** The position of a status in the declaration of the enumeration. *)
Definition status_rank (s : string) : nat :=
  match list_find (λ x, x = s) status_type with
  | Some (k, _) => k
  | None => length status_type
  end.

(** The order of a native enumeration: by position in the declaration. *)
Definition declaration_leb (a b : string) : bool :=
  Nat.leb (status_rank a) (status_rank b).

(** The ids run from 1 in row order. *)
Definition sequential (db : Database) : Prop :=
  ∀ k t, rows db !! k = Some t → id t = Z.of_nat k + 1.

(** The fields of a task that are set when it is created. *)
Definition creation_fields (t : Task) :=
  (id t, md5 t, file_path t, timeout t, priority t, custom t, machine t,
   package t, options t, platform t, added_on t).

End TaskStoreQueries.

(** ** Further notions for the scheduling loop *)

Module AutoprocessNotions.
Import Autoprocess AutoprocessSamples.

(** The task the discovery phase of a pass settles on: the first task of
    the query that is not in flight after the maintenance loop. *)
Definition first_free (cfg : config) (env : environment) (st : state)
  : option task :=
  List.find
    (λ t, negb (in_flight (task_id t) (pending_results (after_reap env st))))
    (list_tasks TASK_COMPLETED (parallel cfg) (db (after_reap env st))).

(** The record [r] stands for the pool job of its handle. *)
Definition mirrors (st : state) (r : submission) : Prop :=
  ∃ j, pool st !! ar r = Some j ∧ task_id (job_task j) = tid r ∧
       job_target j = target r ∧ job_copy_path j = copy_path r.


(** A pass that gives a job to the pool: it is not interrupted, fewer
    than [parallel] submissions remain after the maintenance loop, the
    query holds a task that is not in flight, and the sample of that task
    is there if the task is of category [file]. *)
Definition productive (cfg : config) (env : environment) (st : state) : Prop :=
  interrupt env = false ∧
  Z.of_nat (length (pending_results (after_reap env st))) < parallel cfg ∧
  ∃ t, first_free cfg env st = Some t ∧
       (task_category t = "file"%string →
        is_Some (sample_sha256 env (task_sample_id t))).

(** Every pass that the loop makes from [st] in the environments [envs]
    is productive. *)
Fixpoint all_productive (cfg : config) (envs : list environment) (st : state)
  : Prop :=
  match envs with
  | [] => True
  | env :: envs' =>
      guard cfg st = true →
      productive cfg env st ∧
      all_productive cfg envs' (snd (iteration cfg env st))
  end.

(** A pass like [quiet] in which every job handed out has finished well. *)
Definition all_done : environment :=
  {| interrupt := false; others := λ d, d; ar_state := λ _, Succeeded;
     commit_ok := λ _, true; sample_sha256 := λ _, Some "00"%string |}.

(** A task of category [file] that waits for its report. *)
Definition completed_file (i : Z) (done_at : Z) : task :=
  {| task_id := i; task_category := "file"; task_target := "/tmp/sample";
     task_sample_id := i; task_status := TASK_COMPLETED;
     task_completed_on := done_at |}.

(** No limit on the submissions. *)
Definition unlimited : config :=
  {| maxcount := 0; parallel := 2; CUCKOO_ROOT := "/opt/cuckoo" |}.

(** A state before the first pass, with one file task to report on. *)
Definition one_file_waiting : state := initial [completed_file 5 50].

End AutoprocessNotions.

(** ** [modules/processing/network.py]: the host and DNS bookkeeping of [Pcap] *)

Module Pcap.

(** The dictionary [connection] of [run]: each key may be absent. *)
Record connection : Type := {
  src : option string;
  dst : option string;
  sport : option Z;
  dport : option Z
}.

(** An entry of [dns_requests]. *)
Record dns_entry : Type := {
  hostname : string;
  ip : string
}.

(** The attributes of a [Pcap] object that [_add_hosts] and [_add_dns]
    read and write; the connection and HTTP lists are not touched by
    them. *)
Record state : Type := {
  unique_hosts : list string;
  dns_requests : list dns_entry;
  dns_performed : list string
}.

(** [Pcap.__init__] *)
Definition init : state :=
  {| unique_hosts := []; dns_requests := []; dns_performed := [] |}.

(** [if a not in self.unique_hosts: self.unique_hosts.append(convert_to_printable(a))] *)
Definition add_host (convert_to_printable : string → string) (a : string)
    (hosts : list string) : list string :=
  if bool_decide (a ∈ hosts) then hosts else hosts ++ [convert_to_printable a].

Definition set_unique_hosts (l : list string) (st : state) : state :=
  {| unique_hosts := l; dns_requests := dns_requests st;
     dns_performed := dns_performed st |}.

(** [Pcap._add_hosts]; [convert_to_printable] comes from
    [lib.cuckoo.common.utils] and is an argument here.  A missing key
    raises [KeyError], which the method turns into [False], keeping what
    was appended before. *)
Definition _add_hosts (convert_to_printable : string → string)
    (c : connection) (st : state) : bool * state :=
  match src c with
  | None => (false, st)
  | Some s =>
      let st := set_unique_hosts
                  (add_host convert_to_printable s (unique_hosts st)) st in
      match dst c with
      | None => (false, st)
      | Some d =>
          (true, set_unique_hosts
                   (add_host convert_to_printable d (unique_hosts st)) st)
      end
  end.

(** A character of a regular expression: a literal or the dot. *)
Inductive re_char : Type :=
| Lit (c : ascii)
| Dot.

Definition newline : ascii := "010"%char.

Definition re_char_matches (p : re_char) (c : ascii) : bool :=
  match p with
  | Lit a => Ascii.eqb a c
  | Dot => negb (Ascii.eqb c newline)
  end.

(** Does the pattern match at the start of the string? *)
Fixpoint re_match (pat : list re_char) (s : string) : bool :=
  match pat with
  | [] => true
  | p :: pat' =>
      match s with
      | EmptyString => false
      | String c s' => re_char_matches p c && re_match pat' s'
      end
  end.

(** [re.search(pat, s)] for a pattern of literals and dots, as a truth
    value. *)
Fixpoint re_search (pat : list re_char) (s : string) : bool :=
  re_match pat s ||
  match s with
  | EmptyString => false
  | String _ s' => re_search pat s'
  end.

(** The pattern ["in-addr.arpa"]: its dot is not escaped. *)
Definition in_addr_arpa : list re_char :=
  [Lit "i"; Lit "n"; Lit "-"; Lit "a"; Lit "d"; Lit "d"; Lit "r"; Dot;
   Lit "a"; Lit "r"; Lit "p"; Lit "a"]%char.

(** The characters [str.strip()] removes: space, tab, line feed, vertical
    tab, form feed, carriage return. *)
Definition is_space (c : ascii) : bool :=
  let n := nat_of_ascii c in
  Nat.eqb n 32 || (Nat.leb 9 n && Nat.leb n 13).

Fixpoint lstrip (s : string) : string :=
  match s with
  | EmptyString => EmptyString
  | String c s' => if is_space c then lstrip s' else s
  end.

(** [s.rstrip()] *)
Fixpoint rstrip (s : string) : string :=
  match s with
  | EmptyString => EmptyString
  | String c s' =>
      match rstrip s' with
      | EmptyString => if is_space c then EmptyString else String c EmptyString
      | r => String c r
      end
  end.

(** [s.strip()] *)
Definition strip (s : string) : string := rstrip (lstrip s).

(** What lies outside [_add_dns]: the decoder [dpkt.dns.DNS], which raises
    ([None]) or gives the names of the questions of the message, and the
    resolver [socket.gethostbyname], [None] when it raises
    [socket.gaierror]. *)
Record dns_world : Type := {
  decode : string → option (list string);
  gethostbyname : string → option string
}.

(** [Pcap._check_dns] *)
Definition _check_dns (w : dns_world) (udpdata : string) : bool :=
  match decode w udpdata with Some _ => true | None => false end.

(** The exceptions that leave [_add_dns]: the decoder's, and [IndexError]
    from [dns.qd[0]] on a message without question. *)
Inductive dns_exn : Type :=
| UnpackError
| IndexError.

(** How a call of [_add_dns] ends. *)
Inductive dns_outcome : Type :=
| Returned (b : bool)
| Raised (e : dns_exn).

(** [Pcap._add_dns] *)
Definition _add_dns (w : dns_world) (udpdata : string) (st : state)
  : dns_outcome * state :=
  match decode w udpdata with
  | None => (Raised UnpackError, st)
  | Some [] => (Raised IndexError, st)
  | Some (name :: _) =>
      if bool_decide (name ∈ dns_performed st) then (Returned false, st)
      else if re_search in_addr_arpa name then (Returned false, st)
      else if String.eqb (strip name) "time.windows.com" then (Returned false, st)
      else
        let ip := match gethostbyname w name with
                  | Some a => a
                  | None => ""%string
                  end in
        (Returned true,
         {| unique_hosts := unique_hosts st;
            dns_requests := dns_requests st ++ [{| hostname := name; ip := ip |}];
            dns_performed := dns_performed st ++ [name] |})
  end.

(** The addresses a connection makes [_add_hosts] look at, in order. *)
Definition looked_at (c : connection) : list string :=
  match src c with
  | None => []
  | Some s => s :: match dst c with None => [] | Some d => [d] end
  end.

(** A run of [_add_hosts] calls. *)
Definition add_all_hosts (convert_to_printable : string → string)
    (cs : list connection) (st : state) : state :=
  fold_left (λ st c, snd (_add_hosts convert_to_printable c st)) cs st.

(** [if self._check_dns(udpdata): self._add_dns(udpdata)] for each message
    in turn, as [run] does for the UDP payloads sent to port 53; an
    exception of [_add_dns] is not caught there and ends the run. *)
Fixpoint add_all_dns (w : dns_world) (msgs : list string) (st : state)
  : option dns_exn * state :=
  match msgs with
  | [] => (None, st)
  | m :: msgs' =>
      if _check_dns w m then
        match _add_dns w m st with
        | (Returned _, st') => add_all_dns w msgs' st'
        | (Raised e, st') => (Some e, st')
        end
      else add_all_dns w msgs' st
  end.

(** The DNS lists agree, name each host once, and hold neither a name
    the reverse-lookup pattern matches nor the time server. *)
Definition dns_consistent (st : state) : Prop :=
  hostname <$> dns_requests st = dns_performed st ∧
  NoDup (dns_performed st) ∧
  ∀ name, name ∈ dns_performed st →
          re_search in_addr_arpa name = false ∧
          strip name ≠ "time.windows.com"%string.

(** A decoder for the samples: the message is the name asked for; the
    empty message has no question. *)
Definition sample_world : dns_world :=
  {| decode := λ m, Some (if String.eqb m "" then [] else [m]);
     gethostbyname := λ n, if String.eqb n "example.org"
                           then Some "93.184.216.34"%string else None |}.

End Pcap.

(** * Properties of the task store *)

Section TaskStoreFacts.
Import TaskStore TaskStoreSamples.

Global Instance order_by_le_total : Total order_by_le.
Proof. intros a b; unfold order_by_le; lia. Qed.

Global Instance order_by_le_trans : Transitive order_by_le.
Proof. intros a b c; unfold order_by_le; lia. Qed.

Lemma head_strongly_sorted {A} (R : relation A) (l : list A) (x y : A) :
  StronglySorted R l → head l = Some x → y ∈ l → y = x ∨ R x y.
Proof.
  intros Hs Hh Hy. destruct l as [|z l]; simplify_eq/=.
  apply StronglySorted_inv in Hs as [_ Hall].
  apply elem_of_cons in Hy as [->|Hy]; [by left|right].
  by eapply Forall_forall in Hall.
Qed.

Lemma order_by_insert_Permutation t l : order_by_insert t l ≡ₚ t :: l.
Proof.
  induction l as [|x l IH]; simpl; [done|].
  destruct (decide (order_by_le t x)); [done|].
  rewrite IH. apply perm_swap.
Qed.

Lemma order_by_Permutation l : order_by l ≡ₚ l.
Proof.
  induction l as [|t l IH]; simpl; [done|].
  by rewrite order_by_insert_Permutation, IH.
Qed.

Lemma order_by_insert_sorted t l :
  StronglySorted order_by_le l → StronglySorted order_by_le (order_by_insert t l).
Proof.
  induction l as [|x l IH]; simpl; intros Hs.
  - repeat constructor.
  - apply StronglySorted_inv in Hs as [Hs Hall].
    destruct (decide (order_by_le t x)) as [Hle|Hnle].
    + constructor; [by constructor|]. constructor; [done|].
      eapply Forall_impl; [exact Hall|]. intros y Hy. by etrans.
    + constructor; [by apply IH|].
      apply Forall_forall. intros y Hy.
      rewrite order_by_insert_Permutation in Hy.
      apply elem_of_cons in Hy as [->|Hy].
      * by destruct (total order_by_le x t).
      * by eapply Forall_forall in Hall.
Qed.

Lemma order_by_sorted l : StronglySorted order_by_le (order_by l).
Proof.
  induction l as [|t l IH]; simpl; [constructor|].
  by apply order_by_insert_sorted.
Qed.



(** What [fetch] returns is a pending row, and no pending row comes
    before it in the order ["priority desc, added_on"]. *)
Lemma fetch_Some engine db t :
  (∀ l, engine l ≡ₚ l) →
  fetch engine db = Some t →
  t ∈ rows db ∧ status t = "pending"%string ∧
  ∀ t', t' ∈ rows db → status t' = "pending"%string →
        priority t' ≤ priority t ∧
        (priority t' = priority t → added_on t ≤ added_on t').
Proof.
  intros Hperm Hf. unfold fetch in Hf.
  set (cand := List.filter _ _) in Hf.
  assert (Hcand : ∀ x, x ∈ cand ↔ x ∈ rows db ∧ status x = "pending"%string).
  { intros x. unfold cand. rewrite list_elem_of_In, filter_In, <- list_elem_of_In.
    rewrite (Hperm (rows db)), String.eqb_eq. done. }
  assert (Ht : t ∈ cand).
  { rewrite <- (order_by_Permutation cand).
    destruct (order_by cand); simplify_eq/=. left. }
  apply Hcand in Ht as [Hin Hst]. split; [done|split; [done|]].
  intros t' Hin' Hst'.
  assert (Ht' : t' ∈ order_by cand).
  { rewrite order_by_Permutation. by apply Hcand. }
  destruct (head_strongly_sorted order_by_le _ t t'
              (order_by_sorted cand) Hf Ht') as [->|Hle].
  - lia.
  - unfold order_by_le in Hle. lia.
Qed.

(** [fetch] finds nothing exactly when no row is pending. *)
Lemma fetch_None engine db :
  (∀ l, engine l ≡ₚ l) →
  fetch engine db = None ↔
  ∀ t, t ∈ rows db → status t ≠ "pending"%string.
Proof.
  intros Hperm. unfold fetch.
  set (cand := List.filter _ _).
  assert (Hcand : ∀ x, x ∈ cand ↔ x ∈ rows db ∧ status x = "pending"%string).
  { intros x. unfold cand. rewrite list_elem_of_In, filter_In, <- list_elem_of_In.
    rewrite (Hperm (rows db)), String.eqb_eq. done. }
  rewrite head_None. split.
  - intros Hnil t Hin Hst.
    assert (Ht : t ∈ order_by cand).
    { rewrite order_by_Permutation. by apply Hcand. }
    rewrite Hnil in Ht. by apply elem_of_nil in Ht.
  - intros Hno. destruct (order_by cand) as [|x l] eqn:E; [done|].
    assert (Hx : x ∈ cand).
    { rewrite <- (order_by_Permutation cand), E. left. }
    apply Hcand in Hx as [Hin Hst]. by destruct (Hno x Hin).
Qed.



Lemma get_Some_elem i db t : get i db = Some t → t ∈ rows db.
Proof.
  unfold get. intros H. apply find_some in H as [H _].
  by apply list_elem_of_In.
Qed.

Lemma commit_Some env dirty l db' :
  commit env dirty l = Some db' →
  storage env ≠ FailsAtCommit ∧ rows db' = l ∧
  Forall (λ t, status t ∈ status_type) dirty.
Proof.
  unfold commit. case_bool_decide as Hs; simpl; [|done].
  destruct (forallb row_accepted dirty) eqn:E; [|done].
  intros [= <-]. split; [done|split; [done|]].
  apply Forall_forall. intros t Ht.
  rewrite forallb_forall in E. apply list_elem_of_In, E in Ht.
  unfold row_accepted in Ht. by apply bool_decide_eq_true in Ht.
Qed.


(** The three ways the query of [_set_status] and [complete] goes. *)
Lemma query_get_cases env i db :
  (storage env = FailsAtQuery ∧ query_get env i db = Raise OperationalError) ∨
  (storage env ≠ FailsAtQuery ∧ query_get env i db = Return (get i db)).
Proof.
  unfold query_get. destruct (storage env); [right|left|right]; done.
Qed.

Lemma commit_ok_Works env : commit_ok env = true ↔ storage env = Works.
Proof. unfold commit_ok. apply bool_decide_eq_true. Qed.

(** [_set_status] in the case in which it returns true. *)
Lemma set_status_true env i s db db' :
  _set_status env i s db = (Return true, db') →
  ∃ t, get i db = Some t ∧ rows db' = store i (with_status t s) (rows db) ∧
       s ∈ status_type.
Proof.
  unfold _set_status.
  destruct (query_get_cases env i db) as [[_ ->]|[_ ->]]; [done|].
  destruct (get i db) as [t|]; [|done].
  destruct (commit _ _ _) as [db''|] eqn:C; [|done].
  apply commit_Some in C as (_ & C & Hall). intros [= <-].
  rewrite Forall_singleton in Hall. by exists t.
Qed.

(** [complete] in the case in which it returns true. *)
Lemma complete_true env i success db db' :
  complete env i success db = (Return true, db') →
  ∃ t, get i db = Some t ∧
       rows db' =
       store i (with_completed_on
                  (with_status t (if success then "success" else "failure")%string)
                  (clock env)) (rows db).
Proof.
  unfold complete.
  destruct (query_get_cases env i db) as [[_ ->]|[_ ->]]; [done|].
  destruct (get i db) as [t|]; [|done].
  destruct (commit _ _ _) as [db''|] eqn:C; [|done].
  apply commit_Some in C as (_ & C & _). intros [= <-]. by exists t.
Qed.

(** A call of [_set_status] leaves the store as it was unless it returns
    true. *)
Lemma set_status_cases env i s db :
  snd (_set_status env i s db) = db ∨
  ∃ db', _set_status env i s db = (Return true, db').
Proof.
  unfold _set_status.
  destruct (query_get env i db) as [[t|]|e]; [|by left|by left].
  destruct (commit _ _ _) as [db'|]; [right; by eexists|by left].
Qed.

Lemma complete_cases env i success db :
  snd (complete env i success db) = db ∨
  ∃ db', complete env i success db = (Return true, db').
Proof.
  unfold complete.
  destruct (query_get env i db) as [[t|]|e]; [|by left|by left].
  destruct (commit _ _ _) as [db'|]; [right; by eexists|by left].
Qed.

Lemma set_status_rows cls env i s db :
  rows_step cls env db (rows (snd (_set_status env i s db))).
Proof.
  destruct (set_status_cases env i s db) as [->|[db' H]]; [constructor|].
  rewrite H. simpl. apply set_status_true in H as (t & G & -> & Hs).
  apply rows_status; [by eapply get_Some_elem|done].
Qed.

Lemma run_call_rows cls env c db :
  rows_step cls env db (rows (snd (run_call cls env c db))).
Proof.
  destruct c as [args|i s|i|i success]; simpl.
  - unfold add. destruct (a_file_path args) as [p|] eqn:P; [|constructor].
    destruct (_ || _); [constructor|].
    destruct (commit _ _ _) as [db'|] eqn:C; [|constructor]. simpl.
    apply commit_Some in C as (_ & -> & _). by apply rows_added.
  - pose proof (set_status_rows cls env i s db) as H.
    by destruct (_set_status env i s db).
  - pose proof (set_status_rows cls env i "processing" db) as H.
    unfold process. by destruct (_set_status env i "processing" db).
  - destruct (complete_cases env i success db) as [H|[db' H]].
    + destruct (complete env i success db) as [r d]. simpl in *. subst d.
      constructor.
    + rewrite H. simpl. apply complete_true in H as (t & G & ->).
      apply rows_completed; [by eapply get_Some_elem|].
      destruct success; compute_done.
Qed.

(** A property of rows that new rows have and that rewriting the status
    and completion time keeps holds of every row the store comes to
    contain. *)
Lemma rows_invariant (P : Task → Prop) cls :
  (∀ env db args p,
      a_file_path args = Some p →
      P {| id := next_id db; md5 := a_md5 args; file_path := p;
           timeout := a_timeout args; priority := a_priority args;
           custom := a_custom args; machine := a_machine args;
           package := a_package args; options := a_options args;
           platform := a_platform args;
           added_on := eval_default (added_on_default cls) (clock env);
           completed_on := None; status := status_default cls |}) →
  (∀ t s, P t → s ∈ status_type → P (with_status t s)) →
  (∀ t d, P t → P (with_completed_on t d)) →
  ∀ h db, Forall P (rows db) → Forall P (rows (run_calls cls h db)).
Proof.
  intros Hnew Hst Hco h. induction h as [|[env c] h IH]; intros db Hdb; [done|].
  simpl. apply IH.
  destruct (run_call_rows cls env c db) as [|args p Hp|i t s Ht Hs|i t s Ht Hs].
  - done.
  - apply Forall_app. split; [done|]. apply Forall_singleton. by apply Hnew.
  - unfold store. apply Forall_forall. intros x Hx.
    apply list_elem_of_In, in_map_iff in Hx as (y & <- & Hy).
    rewrite Forall_forall in Hdb.
    destruct (id y =? i); [apply Hst; auto|apply Hdb; by apply list_elem_of_In].
  - unfold store. apply Forall_forall. intros x Hx.
    apply list_elem_of_In, in_map_iff in Hx as (y & <- & Hy).
    rewrite Forall_forall in Hdb.
    destruct (id y =? i); [apply Hco, Hst; auto|apply Hdb; by apply list_elem_of_In].
Qed.

End TaskStoreFacts.

Section TaskStoreClaims.
Import TaskStore TaskStoreSamples.



(** Scenario A of the specification: the sample of priority 5 is fetched
    first, then the two samples of priority 1 in the order of their
    insertion. *)
Lemma scenario_A_fetch_order :
  file_path <$> fetch (λ l, l) scenario_A = Some "/tmp/c"%string ∧
  file_path <$> fetch (λ l, l) (snd (process (env_at 500) 3 scenario_A))
    = Some "/tmp/a"%string ∧
  file_path <$> fetch (λ l, l)
                  (snd (process (env_at 600) 1
                          (snd (process (env_at 500) 3 scenario_A))))
    = Some "/tmp/b"%string.
Proof. repeat split; reflexivity. Qed.











(** With a callable as column default the row would carry the clock
    reading of its insertion. *)
Lemma callable_default_records_insertion_time env args db i db' :
  add {| added_on_default := DefaultCallable; status_default := "pending" |}
      env args db = (Return (Some i), db') →
  ∃ t, rows db' = rows db ++ [t] ∧ added_on t = clock env.
Proof.
  unfold add. destruct (a_file_path args) as [p|]; [|done].
  destruct (_ || _); [done|].
  destruct (commit _ _ _) as [db''|] eqn:C; [|done].
  apply commit_Some in C as (_ & Hrows & _).
  intros [= <- <-]. eexists. split; [exact Hrows|]. done.
Qed.

(** With the class as the source defines it, [add] does not depend on the
    clock reading of the call. *)
Lemma add_ignores_clock t0 env env' args db :
  path_exists env = path_exists env' → storage env = storage env' →
  add (define_Task t0) env args db = add (define_Task t0) env' args db.
Proof.
  intros Hp Hc. unfold add, commit. simpl. by rewrite Hp, Hc.
Qed.

(** C9.  Whatever the calls made on the store and whatever the clock
    shows at each of them, every task the store holds has as [added_on]
    the clock reading taken when the class [Task] was defined; two such
    tasks of equal priority are therefore tied in the order
    ["priority desc, added_on"], each coming before the other. *)
Theorem added_on_fixed_at_class_definition t0 h a b :
  a ∈ rows (run_calls (define_Task t0) h empty_db) →
  b ∈ rows (run_calls (define_Task t0) h empty_db) →
  added_on a = t0 ∧ added_on b = t0 ∧
  (priority a = priority b → order_by_le a b ∧ order_by_le b a).
Proof.
  assert (Hinv : Forall (λ t, added_on t = t0)
                   (rows (run_calls (define_Task t0) h empty_db))).
  { by apply (rows_invariant (λ t, added_on t = t0)). }
  rewrite Forall_forall in Hinv. intros Ha Hb.
  pose proof (Hinv a Ha). pose proof (Hinv b Hb).
  split; [done|]. split; [done|]. unfold order_by_le. lia.
Qed.

Lemma added_on_fixed_at_class_definition_witness :
  ∃ a b, rows two_adds = [a; b] ∧ file_path a = "/tmp/a"%string ∧
         file_path b = "/tmp/b"%string ∧
         added_on a = 100 ∧ added_on b = 100 ∧
         (priority a = priority b → order_by_le a b ∧ order_by_le b a).
Proof.
  destruct (rows two_adds) as [|a [|b l]] eqn:E; try discriminate E.
  destruct l; [|discriminate E].
  exists a, b.
  assert (Ha : a ∈ rows two_adds) by (rewrite E; left).
  assert (Hb : b ∈ rows two_adds) by (rewrite E; right; left).
  pose proof (added_on_fixed_at_class_definition 100 _ a b Ha Hb) as (H1 & H2 & H3).
  injection E as <- <-. done.
Defined.

End TaskStoreClaims.

(** * Properties of the pipeline function *)

Section ProcessFacts.
Import Process ProcessSamples.

(** No global of the module is called [task_id]. *)
Lemma task_id_unbound : module_globals !! "task_id"%string = None.
Proof. vm_compute. reflexivity. Qed.

(** Run with globals among which [task_id] is not bound, [process] leaves
    the analysis store, the blob store and the call documents as they
    are, with or without [report]. *)
Lemma process_unbound_keeps_mongo g ext target copy_path report auto w :
  g !! "task_id"%string = None →
  w_mongo (snd (process g ext target copy_path report auto w)) = w_mongo w.
Proof.
  intros Hg.
  unfold process, cleanup, run_stage, when, mbind, SE_bind, lift, throw,
    modify, mret, SE_ret, load_global.
  rewrite Hg.
  destruct (stage_raises ext RunProcessing_first); simpl; [done|].
  destruct (stage_raises ext GetFeeds); simpl; [done|].
  destruct (stage_raises ext RunProcessing); simpl; [done|].
  destruct (stage_raises ext RunSignatures); simpl; [done|].
  destruct report; simpl; [|done].
  destruct (mongo_enabled ext); simpl; [done|].
  destruct (stage_raises ext RunReporting); simpl; done.
Qed.

(** C1, at the failing input.  In the sample store the analysis of task 7
    is the only analysis record that references blob 102, its raw
    capture.  A regeneration of the report, with MongoDB reporting on and
    no stage raising, run with the globals of the module, raises
    [NameError] for [task_id] at the query for the analyses of the task,
    before any count and any deletion: the world is as it was, so blob
    102 is still in the blob store, and the record of the analysis and its
    call documents are still in their collections, where the claim has
    the blob deleted and the record and the documents removed.  The same
    holds of every store: no run of [process] with the globals of the
    module changes the analysis store. *)
Theorem report_cleanup_stops_at_task_id :
  referencing_analyses 102 shared_store = 1%nat ∧
  network_pcap_id analysis_7 = Some 102 ∧
  (∀ target copy_path auto,
      process module_globals smooth target copy_path true auto
              (world_of shared_store)
      = (Raise (NameError "task_id"), world_of shared_store)) ∧
  102 ∈ fs shared_store ∧
  analysis_7 ∈ analysis_coll shared_store ∧
  Forall (λ c, c ∈ calls_coll shared_store) (concat (behavior_processes analysis_7)) ∧
  (∀ ext target copy_path report auto m,
      w_mongo (snd (process module_globals ext target copy_path report auto
                            (world_of m))) = m).
Proof.
  split; [reflexivity|]. split; [reflexivity|]. split; [reflexivity|].
  split; [compute_done|]. split; [left|]. split; [compute_done|].
  intros ext target copy_path report auto m.
  apply (process_unbound_keeps_mongo module_globals ext target copy_path report
           auto (world_of m)), task_id_unbound.
Qed.

(** C10.  Run with globals among which [task_id] is not bound, as those
    of its module are, every call of [process] with [report=True] ends in
    an exception: either a stage raised, or the evaluation of the unbound
    name [task_id] raised [NameError].  The latter happens whenever no
    stage raises.  In no case has the call set a task status or changed
    the analysis store. *)
Theorem process_report_raises_on_task_id g ext target copy_path auto w :
  g !! "task_id"%string = None →
  ∃ e w',
    process g ext target copy_path true auto w = (Raise e, w') ∧
    w_set_status w' = w_set_status w ∧
    w_mongo w' = w_mongo w ∧
    (e = NameError "task_id" ∨ e = StageError ∧ ∃ s, stage_raises ext s = true) ∧
    ((∀ s, stage_raises ext s = false) → e = NameError "task_id").
Proof.
  intros Hg.
  unfold process, cleanup, run_stage, when, mbind, SE_bind, lift, throw,
    modify, mret, SE_ret, load_global.
  rewrite Hg.
  destruct (stage_raises ext RunProcessing_first) eqn:E1; simpl;
    [eexists _, _; repeat split; [right; eauto|intros H; congruence]|].
  destruct (stage_raises ext GetFeeds) eqn:E2; simpl;
    [eexists _, _; repeat split; [right; eauto|intros H; congruence]|].
  destruct (stage_raises ext RunProcessing) eqn:E3; simpl;
    [eexists _, _; repeat split; [right; eauto|intros H; congruence]|].
  destruct (stage_raises ext RunSignatures) eqn:E4; simpl;
    [eexists _, _; repeat split; [right; eauto|intros H; congruence]|].
  destruct (mongo_enabled ext); simpl;
    [eexists _, _; repeat split; by left|].
  destruct (stage_raises ext RunReporting) eqn:E5; simpl;
    [eexists _, _; repeat split; [right; eauto|intros H; congruence]|].
  eexists _, _; repeat split; by left.
Qed.

(** With the globals of [utils/process.py], on the sample store. *)
Lemma process_report_raises_on_task_id_witness :
  ∃ e w',
    process module_globals smooth (Some "/tmp/a"%string) None true true
            (world_of shared_store) = (Raise e, w') ∧
    w_set_status w' = [] ∧
    w_mongo w' = shared_store ∧
    (e = NameError "task_id" ∨ e = StageError ∧ ∃ s, stage_raises smooth s = true) ∧
    ((∀ s, stage_raises smooth s = false) → e = NameError "task_id").
Proof.
  apply (process_report_raises_on_task_id module_globals smooth
           (Some "/tmp/a"%string) None true (world_of shared_store)).
  vm_compute. reflexivity.
Defined.

End ProcessFacts.

(** * Properties of the scheduling loop *)

Section ReapFacts.
Import Autoprocess AutoprocessSamples.

Lemma list_remove_app x kept rest :
  x ∉ kept → list_remove x (kept ++ x :: rest) = Return (kept ++ rest).
Proof.
  induction kept as [|y kept IH]; simpl; intros Hx.
  - by rewrite decide_True.
  - apply not_elem_of_cons in Hx as [Hne Hx].
    rewrite decide_False by done. by rewrite IH.
Qed.

Lemma with_status_idemp t s : with_status (with_status t s) s = with_status t s.
Proof. done. Qed.

Lemma mark_failed_cons_quiet env r l d :
  ar_state env (ar r) ≠ Failed → mark_failed env (r :: l) d = mark_failed env l d.
Proof.
  intros H. unfold mark_failed, failed_in. simpl.
  destruct (ar_state env (ar r)); done.
Qed.

Lemma mark_failed_cons_failed env r l d :
  ar_state env (ar r) = Failed →
  mark_failed env l
    (snd (set_status (commit_ok env (tid r)) (tid r) TASK_FAILED_PROCESSING d))
  = mark_failed env (r :: l) d.
Proof.
  intros H. unfold mark_failed, failed_in, set_status. simpl. rewrite H.
  destruct (commit_ok env (tid r)); simpl; [|done].
  rewrite map_map. apply map_ext. intros t.
  destruct (Z.eqb_spec (task_id t) (tid r)) as [Heq|Hne]; simpl.
  - rewrite <- Heq, Z.eqb_refl. simpl. by destruct (existsb _ l).
  - destruct (Z.eqb_spec (tid r) (task_id t)); [congruence|done].
Qed.

(** The maintenance loop on the rest [rest] of its snapshot, when the
    list itself stands at [kept ++ rest] with nothing finished in [kept]. *)
Lemma reap_rest env rest : ∀ kept n p d,
  Forall (λ r, not_ready env r = true) kept →
  for_each rest (reap_one env)
    {| count := n; pending_results := kept ++ rest; pool := p; db := d |}
  = (Return tt,
     {| count := n;
        pending_results := kept ++ List.filter (not_ready env) rest;
        pool := p; db := mark_failed env rest d |}).
Proof.
  induction rest as [|r rest IH]; intros kept n p d Hkept; simpl.
  - unfold mark_failed. rewrite map_id. done.
  - assert (Hr : ar_state env (ar r) ≠ NotReady → r ∉ kept).
    { intros Hne Hin. rewrite Forall_forall in Hkept.
      specialize (Hkept r Hin). unfold not_ready in Hkept.
      by destruct (ar_state env (ar r)). }
    unfold mbind, SE_bind, reap_one, not_ready.
    destruct (ar_state env (ar r)) eqn:E; simpl.
    + replace (kept ++ r :: rest) with ((kept ++ [r]) ++ rest)
        by (by rewrite <- app_assoc).
      rewrite IH.
      * rewrite <- app_assoc. simpl.
        rewrite mark_failed_cons_quiet by congruence. done.
      * apply Forall_app. split; [done|]. apply Forall_singleton.
        unfold not_ready. by rewrite E.
    + unfold pending_remove, mbind, SE_bind, gets, lift, modify. simpl.
      rewrite list_remove_app by (by apply Hr).
      unfold set_pending_results. simpl. rewrite IH by done.
      rewrite mark_failed_cons_quiet by congruence. done.
    + unfold db_set_status, pending_remove, mbind, SE_bind, gets, lift, modify.
      simpl. rewrite list_remove_app by (by apply Hr).
      unfold set_pending_results. simpl. rewrite IH by done.
      rewrite mark_failed_cons_failed by done. done.
Qed.

(** The maintenance loop in closed form: it never raises, keeps the
    submissions that are not ready, in their order, and marks the tasks
    of the failed ones. *)
Lemma reap_closed_form env st :
  reap env st
  = (Return tt,
     {| count := count st;
        pending_results := List.filter (not_ready env) (pending_results st);
        pool := pool st;
        db := mark_failed env (pending_results st) (db st) |}).
Proof.
  unfold reap, mbind, SE_bind, gets. destruct st as [n l p d]. simpl.
  apply (reap_rest env l [] n p d). constructor.
Qed.

Lemma view_mark_failed env l d i :
  view i (mark_failed env l d)
  = (λ t, if failed_in env l i then with_status t TASK_FAILED_PROCESSING else t)
      <$> view i d.
Proof.
  unfold view, mark_failed. induction d as [|t d IH]; simpl; [done|].
  destruct (failed_in env l (task_id t)) eqn:F; simpl.
  - destruct (Z.eqb_spec (task_id t) i) as [Heq|Hne]; simpl; [|done].
    by rewrite <- Heq, F.
  - destruct (Z.eqb_spec (task_id t) i) as [Heq|Hne]; simpl; [|done].
    by rewrite <- Heq, F.
Qed.

Lemma failed_in_true env l i :
  failed_in env l i = true ↔
  ∃ r, r ∈ l ∧ ar_state env (ar r) = Failed ∧
       commit_ok env (tid r) = true ∧ tid r = i.
Proof.
  unfold failed_in. rewrite existsb_exists. split.
  - intros (r & Hr & H). exists r. split; [by apply list_elem_of_In|].
    destruct (ar_state env (ar r)); try done.
    apply andb_true_iff in H as [H1 H2]. by apply Z.eqb_eq in H2.
  - intros (r & Hr & Hf & Hc & Hi). exists r.
    split; [by apply list_elem_of_In|]. rewrite Hf, Hc, Hi. simpl.
    apply Z.eqb_refl.
Qed.

(** C4, counterexample.  Tasks 1 and 2 are in flight, the job of task 1
    has failed, and the store does not commit the status update: after
    the maintenance loop the record of task 1 is gone from the in-flight
    list and the task is still [completed], not [failed_processing]; a
    pass made in this state hands task 1 to the pool a second time. *)
Lemma reap_leaves_status_when_commit_fails :
  ar_state (failing_uncommitted 0) 0 = Failed ∧
  tid <$> pending_results two_in_flight = [1; 2] ∧
  tid <$> pending_results (snd (reap (failing_uncommitted 0) two_in_flight))
    = [2] ∧
  task_status <$>
    view 1 (db (snd (reap (failing_uncommitted 0) two_in_flight)))
    = Some TASK_COMPLETED ∧
  (λ j, task_id (job_task j)) <$>
    pool (snd (iteration AutoprocessNotions.unlimited (failing_uncommitted 0)
                         two_in_flight))
    = [1; 2; 1].
Proof. repeat split; reflexivity. Qed.

(** C4, amended.  The maintenance loop of a pass returns without raising.
    It leaves in flight exactly the submissions that are not ready, in
    their order, so every finished one is removed whether it succeeded or
    failed and whether or not the status update is committed; it changes
    neither the submission count nor the pool.  For a submission that
    failed, the task, if the store holds it and commits the update, has
    status [failed_processing] afterwards; a task that is not the task of
    a failed submission whose update is committed is as it was. *)
Theorem reap_marks_failed_and_removes env st :
  ∃ st',
    reap env st = (Return tt, st') ∧
    pending_results st' = List.filter (not_ready env) (pending_results st) ∧
    (∀ r, r ∈ pending_results st' ↔
          r ∈ pending_results st ∧ ar_state env (ar r) = NotReady) ∧
    count st' = count st ∧ pool st' = pool st ∧
    (∀ r, r ∈ pending_results st → ar_state env (ar r) = Failed →
          commit_ok env (tid r) = true → is_Some (view (tid r) (db st)) →
          task_status <$> view (tid r) (db st') = Some TASK_FAILED_PROCESSING) ∧
    (∀ i, (∀ r, r ∈ pending_results st → ar_state env (ar r) = Failed →
                commit_ok env (tid r) = true → tid r ≠ i) →
          view i (db st') = view i (db st)).
Proof.
  eexists. split; [apply reap_closed_form|]. simpl.
  split; [done|]. split; [|split; [done|split; [done|split]]].
  - intros r. rewrite list_elem_of_In, filter_In, <- list_elem_of_In.
    unfold not_ready. destruct (ar_state env (ar r)); intuition congruence.
  - intros r Hr Hf Hc [t Ht]. rewrite view_mark_failed, Ht. simpl.
    assert (failed_in env (pending_results st) (tid r) = true) as ->; [|done].
    apply failed_in_true. by exists r.
  - intros i Hi. rewrite view_mark_failed.
    destruct (failed_in env (pending_results st) i) eqn:F.
    + apply failed_in_true in F as (r & Hr & Hf & Hc & Heq).
      by destruct (Hi r Hr Hf Hc).
    + by destruct (view i (db st)).
Qed.

(** Task 1 fails while task 2 is still running. *)
Lemma reap_marks_failed_and_removes_witness :
  ∃ st',
    reap (failing 0) two_in_flight = (Return tt, st') ∧
    tid <$> pending_results st' = [2] ∧
    task_status <$> view 1 (db st') = Some TASK_FAILED_PROCESSING ∧
    view 2 (db st') = view 2 (db two_in_flight) ∧
    view 3 (db st') = view 3 (db two_in_flight).
Proof.
  destruct (reap_marks_failed_and_removes (failing 0) two_in_flight)
    as (st' & Hrun & Hpending & _ & _ & _ & Hfailed & Hother).
  exists st'. split; [exact Hrun|]. split; [by rewrite Hpending|].
  split; [|split].
  - apply (Hfailed {| ar := 0%nat; tid := 1; target := "http://example.org/";
                      copy_path := None |}); [left|reflexivity|reflexivity|].
    eexists. reflexivity.
  - apply Hother. intros r Hr Hf _.
    apply list_elem_of_In in Hr. simpl in Hr.
    destruct Hr as [<-|[<-|[]]]; [done|discriminate Hf].
  - apply Hother. intros r Hr Hf _.
    apply list_elem_of_In in Hr. simpl in Hr.
    destruct Hr as [<-|[<-|[]]]; [done|discriminate Hf].
Defined.

End ReapFacts.

Section LoopFacts.
Import Autoprocess AutoprocessSamples.

Lemma iteration_unfold cfg env st :
  iteration cfg env st =
  if interrupt env then (Raise KeyboardInterrupt, st)
  else if Z.leb (parallel cfg)
                (Z.of_nat (length (pending_results (after_reap env st))))
  then (Return tt, after_reap env st)
  else match List.find
               (λ t, negb (in_flight (task_id t)
                                     (pending_results (after_reap env st))))
               (list_tasks TASK_COMPLETED (parallel cfg)
                           (db (after_reap env st))) with
       | Some t => submit cfg env t (after_reap env st)
       | None => (Return tt, after_reap env st)
       end.
Proof.
  unfold iteration. destruct (interrupt env); [done|].
  unfold mbind, SE_bind, modify, gets. rewrite reap_closed_form. simpl.
  fold (after_reap env st).
  destruct (Z.leb _ _); [done|]. by destruct (List.find _ _).
Qed.

Lemma iteration_pass cfg env st :
  pass cfg env st (fst (iteration cfg env st)) (snd (iteration cfg env st)).
Proof.
  rewrite iteration_unfold.
  destruct (interrupt env) eqn:Hint; [by constructor|].
  destruct (Z.leb_spec (parallel cfg)
              (Z.of_nat (length (pending_results (after_reap env st)))))
    as [Hfull|Hroom]; [constructor|].
  destruct (List.find _ _) as [t|] eqn:Hfind; [|constructor].
  apply find_some in Hfind as [_ Hfree]. apply negb_true_iff in Hfree.
  unfold submit, mbind, SE_bind, apply_async, gets, modify, mret, SE_ret, throw.
  destruct (String.eqb (task_category t) "file").
  - destruct (sample_sha256 env (task_sample_id t)) as [sha|]; simpl.
    + by apply (pass_submit cfg env st t (Some (binary_path cfg sha))).
    + by constructor.
  - simpl. by apply (pass_submit cfg env st t None).
Qed.

Lemma in_flight_false i l : in_flight i l = false → i ∉ tid <$> l.
Proof.
  unfold in_flight. intros H Hin.
  assert (existsb (Z.eqb i) (List.map tid l) = true); [|congruence].
  apply existsb_exists. exists i. split; [|apply Z.eqb_refl].
  by apply list_elem_of_In in Hin.
Qed.

(** A property that holds of the state given to the loop and that every
    pass begun under a true loop condition keeps holds of the state the
    loop stands at after any number of passes. *)
Lemma loop_invariant cfg (I : state → Prop) :
  (∀ env st r st', guard cfg st = true → I st → pass cfg env st r st' → I st') →
  ∀ envs st, I st → I (final (loop cfg envs st)).
Proof.
  intros Hpass envs. induction envs as [|env envs IH]; intros st Hst; simpl.
  - by destruct (guard cfg st).
  - destruct (guard cfg st) eqn:Hg; [|done].
    pose proof (iteration_pass cfg env st) as Hp.
    destruct (iteration cfg env st) as [r st']. simpl in Hp.
    pose proof (Hpass env st r st' Hg Hst Hp) as Hst'.
    destruct r as [[]|e]; [by apply IH|].
    by destruct e.
Qed.

Lemma loop_finished cfg envs st st' :
  loop cfg envs st = Finished st' → guard cfg st' = false.
Proof.
  revert st. induction envs as [|env envs IH]; intros st; simpl.
  - destruct (guard cfg st) eqn:Hg; [done|]. by intros [= <-].
  - destruct (guard cfg st) eqn:Hg; [|by intros [= <-]].
    destruct (iteration cfg env st) as [[[]|e] st'']; [apply IH|].
    by destruct e.
Qed.

Lemma filter_length_le {A} (P : A → bool) (l : list A) :
  (length (List.filter P l) ≤ length l)%nat.
Proof.
  induction l as [|x l IH]; simpl; [done|]. destruct (P x); simpl; lia.
Qed.

Lemma filter_sublist {A} (P : A → bool) (l : list A) :
  List.filter P l `sublist_of` l.
Proof.
  induction l as [|x l IH]; simpl; [constructor|].
  destruct (P x); by constructor.
Qed.

Lemma after_reap_inflight_ok cfg env st :
  inflight_ok cfg st → inflight_ok cfg (after_reap env st).
Proof.
  intros [Hlen Hnd]. split; simpl.
  - pose proof (filter_length_le (not_ready env) (pending_results st)). lia.
  - eapply sublist_NoDup; [exact Hnd|]. apply fmap_sublist, filter_sublist.
Qed.

Lemma pass_inflight_ok cfg env st r st' :
  inflight_ok cfg st → pass cfg env st r st' → inflight_ok cfg st'.
Proof.
  intros Hok Hp. pose proof (after_reap_inflight_ok cfg env st Hok) as [Hlen Hnd].
  destruct Hp as [Hint| |Hroom|t cp Hroom Hfree]; try done.
  split; simpl in *.
  - rewrite length_app. simpl. lia.
  - rewrite fmap_app. simpl. apply NoDup_app. split; [done|]. split.
    + intros i Hi Hi'. apply list_elem_of_singleton in Hi' as ->.
      by apply in_flight_false in Hfree.
    + apply NoDup_singleton.
Qed.

(** C2.  With a pool size that is not negative: whatever happens around
    the loop, at the state the loop stands at after any number of passes
    (between two passes, or where an interrupt or another exception
    stopped it) the in-flight list has at most [parallel] records and no
    two of them are for the same task id; and the same holds in the
    middle of the next pass, once the maintenance loop has run. *)
Theorem inflight_bounded_and_distinct cfg envs db0 :
  0 ≤ parallel cfg →
  (Z.of_nat (length (pending_results (final (autoprocess cfg envs db0))))
     ≤ parallel cfg ∧
   NoDup (tid <$> pending_results (final (autoprocess cfg envs db0)))) ∧
  ∀ env,
    Z.of_nat (length (pending_results
                        (snd (reap env (final (autoprocess cfg envs db0))))))
      ≤ parallel cfg ∧
    NoDup (tid <$> pending_results
                     (snd (reap env (final (autoprocess cfg envs db0))))).
Proof.
  intros HP.
  assert (Hok : inflight_ok cfg (final (autoprocess cfg envs db0))).
  { apply (loop_invariant cfg (inflight_ok cfg)).
    - intros env st r st' _. apply pass_inflight_ok.
    - split; simpl; [lia|constructor]. }
  split; [exact Hok|]. intros env. rewrite reap_closed_form. simpl.
  destruct Hok as [Hlen Hnd]. split.
  - pose proof (filter_length_le (not_ready env)
                  (pending_results (final (autoprocess cfg envs db0)))). lia.
  - eapply sublist_NoDup; [exact Hnd|]. apply fmap_sublist, filter_sublist.
Qed.

Lemma inflight_bounded_and_distinct_witness :
  (Z.of_nat (length (pending_results
       (final (autoprocess two_of_three [quiet; quiet; quiet] three_completed))))
     ≤ 2 ∧
   NoDup (tid <$> pending_results
       (final (autoprocess two_of_three [quiet; quiet; quiet] three_completed)))) ∧
  ∀ env,
    Z.of_nat (length (pending_results
       (snd (reap env
          (final (autoprocess two_of_three [quiet; quiet; quiet] three_completed))))))
      ≤ 2 ∧
    NoDup (tid <$> pending_results
       (snd (reap env
          (final (autoprocess two_of_three [quiet; quiet; quiet] three_completed))))).
Proof.
  apply (inflight_bounded_and_distinct two_of_three [quiet; quiet; quiet]
           three_completed).
  simpl. lia.
Defined.

Lemma guard_true cfg st :
  0 < maxcount cfg → guard cfg st = true → count st < maxcount cfg.
Proof.
  unfold guard. intros Hmax H. apply orb_true_iff in H as [H|H]; lia.
Qed.

Lemma guard_false cfg st :
  0 < maxcount cfg → guard cfg st = false ↔ maxcount cfg ≤ count st.
Proof.
  unfold guard. intros Hmax. rewrite orb_false_iff. lia.
Qed.

(** With [maxcount] at 0 the loop condition is always true. *)
Lemma guard_unlimited cfg st : maxcount cfg = 0 → guard cfg st = true.
Proof. unfold guard. intros ->. apply orb_true_r. Qed.

(** C3.  With [maxcount] positive: a pass adds at most one job to those
    submitted to the pool and withdraws none; and the number of jobs ever
    submitted, which is what [count] counts, is at most [maxcount] at the
    state the loop stands at after any number of passes. *)
Theorem submissions_capped cfg envs db0 :
  0 < maxcount cfg →
  (∀ env st,
      pool st `prefix_of` pool (snd (iteration cfg env st)) ∧
      (length (pool (snd (iteration cfg env st))) ≤ S (length (pool st)))%nat) ∧
  count (final (autoprocess cfg envs db0))
    = Z.of_nat (length (pool (final (autoprocess cfg envs db0)))) ∧
  Z.of_nat (length (pool (final (autoprocess cfg envs db0)))) ≤ maxcount cfg.
Proof.
  intros Hmax. split.
  - intros env st. destruct (iteration_pass cfg env st); simpl.
    + split; [done|lia].
    + split; [done|lia].
    + split; [done|lia].
    + split; [by apply prefix_app_r|]. rewrite length_app. simpl. lia.
  - assert (H : counted cfg (final (autoprocess cfg envs db0))).
    { apply (loop_invariant cfg (counted cfg)).
      - intros env st r st' Hg [Hc Hle] Hp.
        apply guard_true in Hg; [|done].
        destruct Hp; split; simpl; try done; try lia.
        rewrite length_app. simpl. lia.
      - split; simpl; lia. }
    destruct H as [Hc Hle]. split; [done|lia].
Qed.

Lemma submissions_capped_witness :
  Z.of_nat (length (pool
      (final (autoprocess two_of_three [quiet; quiet; quiet] three_completed))))
  ≤ 2.
Proof.
  apply (submissions_capped two_of_three [quiet; quiet; quiet] three_completed).
  simpl. lia.
Defined.

(** C5, counterexample.  Two workers, [maxcount] 2, three completed
    tasks, and no worker finishing: the second pass submits the second
    task and the loop is left at once, with both submissions in flight. *)
Lemma loop_exits_with_submissions_in_flight :
  autoprocess two_of_three [quiet; quiet; quiet] three_completed
    = Finished two_in_flight ∧
  tid <$> pending_results two_in_flight = [1; 2].
Proof. split; reflexivity. Qed.

(** C5, amended.  With [maxcount] positive, the loop is left through its
    condition exactly when the number of submitted tasks has reached
    [maxcount], whatever is in flight: at a state with [count] below
    [maxcount] it goes on, at a state with [count] at [maxcount] or above
    it stops there.  When [autoprocess] leaves the loop this way, [count]
    equals [maxcount] and the in-flight list is not empty. *)
Theorem loop_exit_condition cfg :
  0 < maxcount cfg →
  (∀ st, guard cfg st = false ↔ maxcount cfg ≤ count st) ∧
  (∀ envs st, maxcount cfg ≤ count st → loop cfg envs st = Finished st) ∧
  (∀ st, count st < maxcount cfg → loop cfg [] st = Looping st) ∧
  (∀ envs db0 st,
      autoprocess cfg envs db0 = Finished st →
      count st = maxcount cfg ∧ pending_results st ≠ []).
Proof.
  intros Hmax. split; [intros st; by apply guard_false|]. split; [|split].
  - intros envs st Hc. apply guard_false in Hc; [|done].
    destruct envs; simpl; by rewrite Hc.
  - intros st Hc. simpl.
    destruct (guard cfg st) eqn:Hg; [done|].
    apply guard_false in Hg; [lia|done].
  - intros envs db0 st Hrun.
    assert (H : exits_loaded cfg (final (autoprocess cfg envs db0))).
    { apply (loop_invariant cfg (exits_loaded cfg)).
      - intros env s r s' Hg [Hle Hne] Hp.
        apply guard_true in Hg; [|done].
        destruct Hp; split; simpl; try lia; try done.
        intros _. by destruct (List.filter _ _). 
      - split; simpl; lia. }
    rewrite Hrun in H. simpl in H. destruct H as [Hle Hne].
    apply loop_finished, guard_false in Hrun; [|done].
    split; [lia|]. apply Hne. lia.
Qed.

Lemma loop_exit_condition_witness :
  count two_in_flight = 2 ∧ pending_results two_in_flight ≠ [].
Proof.
  assert (Hmax : 0 < maxcount two_of_three) by (simpl; lia).
  apply (proj2 (proj2 (proj2 (loop_exit_condition two_of_three Hmax)))
           [quiet; quiet; quiet] three_completed two_in_flight).
  reflexivity.
Defined.

End LoopFacts.

(** * Further properties of the task store *)

Section TaskStoreMore.
Import TaskStore TaskStoreSamples TaskStoreQueries.

Lemma NoDup_fmap_eq {A B} (f : A → B) (l : list A) a b :
  NoDup (f <$> l) → a ∈ l → b ∈ l → f a = f b → a = b.
Proof.
  induction l as [|x l IH]; simpl; intros Hnd Ha Hb Hab.
  - by apply elem_of_nil in Ha.
  - apply NoDup_cons in Hnd as [Hx Hnd].
    apply elem_of_cons in Ha as [->|Ha]; apply elem_of_cons in Hb as [->|Hb].
    + done.
    + destruct Hx. rewrite Hab. by apply list_elem_of_fmap_2.
    + destruct Hx. rewrite <- Hab. by apply list_elem_of_fmap_2.
    + by apply IH.
Qed.

Lemma find_fmap_key {A} (key : A → Z) (g : A → A) (j : Z) (l : list A) :
  (∀ x, key (g x) = key x) →
  List.find (λ x, Z.eqb (key x) j) (List.map g l)
  = g <$> List.find (λ x, Z.eqb (key x) j) l.
Proof.
  intros Hkey. induction l as [|x l IH]; simpl; [done|].
  rewrite Hkey. by destruct (key x =? j).
Qed.

Lemma get_Some_id i db t : get i db = Some t → id t = i.
Proof.
  unfold get. intros H. apply find_some in H as [_ H]. by apply Z.eqb_eq.
Qed.

(** [view] after the row [i] was rewritten to a row with the same id. *)
Lemma view_store i j t t' l :
  get i {| rows := l |} = Some t → id t' = i →
  view j {| rows := store i t' l |}
  = if decide (j = i) then Some t' else view j {| rows := l |}.
Proof.
  intros Hget Hid. pose proof (get_Some_id _ _ _ Hget) as Hidt.
  unfold view, get, store in *. simpl in *.
  rewrite (find_fmap_key id (λ x, if id x =? i then t' else x)).
  - destruct (decide (j = i)) as [->|Hne].
    + rewrite Hget. simpl. by rewrite Hidt, Z.eqb_refl.
    + destruct (List.find (λ x, id x =? j) l) as [x|] eqn:F; [|done]. simpl.
      apply find_some in F as [_ F]. apply Z.eqb_eq in F.
      destruct (Z.eqb_spec (id x) i); [congruence|done].
  - intros x. destruct (Z.eqb_spec (id x) i); [congruence|done].
Qed.

Lemma view_app j l x :
  view j {| rows := l ++ [x] |}
  = match view j {| rows := l |} with
    | Some t => Some t
    | None => if Z.eqb (id x) j then Some x else None
    end.
Proof.
  unfold view, get. simpl. induction l as [|y l IH]; simpl; [done|].
  by destruct (id y =? j).
Qed.

Lemma sequential_run_call cls env c db :
  sequential db → sequential (snd (run_call cls env c db)).
Proof.
  intros Hseq.
  assert (Hstore : ∀ i t' db', id t' = i → rows db' = store i t' (rows db) →
            sequential db').
  { intros i t' db' Hid Hrows k t. rewrite Hrows. unfold store.
    rewrite list_lookup_fmap.
    destruct (rows db !! k) as [x|] eqn:E; [|done]. simpl. intros [= <-].
    pose proof (Hseq k x E). destruct (Z.eqb_spec (id x) i); congruence. }
  assert (Hset : ∀ i s, sequential (snd (_set_status env i s db))).
  { intros i s. destruct (set_status_cases env i s db) as [->|[db' H]]; [done|].
    rewrite H. simpl. apply set_status_true in H as (t & G & Hrows & _).
    eapply Hstore; [|exact Hrows]. simpl. by apply get_Some_id in G. }
  destruct c as [args|i s|i|i success]; simpl.
  - unfold add. destruct (a_file_path args) as [p|]; [|done].
    destruct (_ || _); [done|].
    destruct (commit _ _ _) as [db'|] eqn:C; [|done].
    apply commit_Some in C as (_ & C & _). simpl.
    intros k t. rewrite C. rewrite lookup_app_Some. intros [Hk|[Hk Hlast]].
    + by apply Hseq.
    + apply list_lookup_singleton_Some in Hlast as [Hk0 <-]. simpl.
      unfold next_id. lia.
  - specialize (Hset i s). by destruct (_set_status env i s db).
  - specialize (Hset i "processing"%string). unfold process.
    by destruct (_set_status env i "processing" db).
  - destruct (complete env i success db) as [r d] eqn:E. simpl.
    destruct (complete_cases env i success db) as [H|[db' H]];
      rewrite E in H; simpl in H.
    + by subst d.
    + injection H as -> ->. apply complete_true in E as (t & G & Hrows).
      eapply Hstore; [|exact Hrows]. simpl. by apply get_Some_id in G.
Qed.

Lemma sequential_run_calls cls h db :
  sequential db → sequential (run_calls cls h db).
Proof.
  revert db. induction h as [|[env c] h IH]; intros db Hdb; simpl; [done|].
  by apply IH, sequential_run_call.
Qed.

Lemma sequential_empty : sequential empty_db.
Proof. intros k t. simpl. by rewrite lookup_nil. Qed.

Lemma sequential_fresh db : sequential db → get (next_id db) db = None.
Proof.
  intros Hseq. unfold get. destruct (List.find _ _) as [t|] eqn:F; [|done].
  apply find_some in F as [Hin Hid]. apply Z.eqb_eq in Hid.
  apply list_elem_of_In, list_elem_of_lookup in Hin as [k Hk].
  pose proof (Hseq k t Hk). apply lookup_lt_Some in Hk.
  unfold next_id in Hid. lia.
Qed.

(** X1.  On a store built by any calls from the empty store: when [add]
    returns an id, no task had that id before, [view] of that id now gives
    the task with the arguments of the call, status [pending], no
    completion time and the class-definition time as [added_on], and
    [view] of every other id gives what it gave before. *)
Theorem add_then_view t0 h env args i db' :
  add (define_Task t0) env args (run_calls (define_Task t0) h empty_db)
    = (Return (Some i), db') →
  view i (run_calls (define_Task t0) h empty_db) = None ∧
  (∃ p, a_file_path args = Some p ∧
        view i db' =
        Some {| id := i; md5 := a_md5 args; file_path := p;
                timeout := a_timeout args; priority := a_priority args;
                custom := a_custom args; machine := a_machine args;
                package := a_package args; options := a_options args;
                platform := a_platform args; added_on := t0;
                completed_on := None; status := "pending" |}) ∧
  ∀ j, j ≠ i → view j db' = view j (run_calls (define_Task t0) h empty_db).
Proof.
  assert (Hseq : sequential (run_calls (define_Task t0) h empty_db))
    by apply sequential_run_calls, sequential_empty.
  destruct (run_calls (define_Task t0) h empty_db) as [l].
  pose proof (sequential_fresh _ Hseq) as Hfresh.
  unfold add. destruct (a_file_path args) as [p|]; [|done].
  destruct (_ || _); [done|].
  destruct (commit _ _ _) as [db''|] eqn:C; [|done].
  apply commit_Some in C as (_ & C & _). simpl. intros [= <- <-].
  destruct db'' as [l']. simpl in C. subst l'.
  split; [exact Hfresh|]. split.
  - exists p. split; [done|]. rewrite view_app. unfold view. rewrite Hfresh.
    simpl. by rewrite Z.eqb_refl.
  - intros j Hj. rewrite view_app.
    destruct (view j {| rows := l |}); [done|]. simpl.
    destruct (Z.eqb_spec (next_id {| rows := l |}) j); [congruence|done].
Qed.

Lemma add_then_view_witness :
  view 3 two_adds = None ∧
  (∃ p, a_file_path (add_defaults (Some "/tmp/c"%string)) = Some p ∧
        view 3 (snd (add (define_Task 100) (env_at 400)
                         (add_defaults (Some "/tmp/c"%string)) two_adds)) =
        Some {| id := 3; md5 := None; file_path := p; timeout := 0;
                priority := 1; custom := None; machine := None;
                package := None; options := None; platform := None;
                added_on := 100; completed_on := None; status := "pending" |}) ∧
  ∀ j, j ≠ 3 →
       view j (snd (add (define_Task 100) (env_at 400)
                        (add_defaults (Some "/tmp/c"%string)) two_adds))
       = view j two_adds.
Proof.
  apply (add_then_view 100
           [(env_at 200, Add (add_defaults (Some "/tmp/a"%string)));
            (env_at 300, Add (add_defaults (Some "/tmp/b"%string)))]
           (env_at 400) (add_defaults (Some "/tmp/c"%string)) 3).
  reflexivity.
Defined.

(** X3.  [_set_status] with a status of the enumeration, on a task that
    exists and with a commit that goes through, returns true whatever
    status the task had: afterwards [view] of the task gives the old row
    with the new status, and [view] of any other id gives what it gave
    before. *)
Theorem set_status_overwrites env i s db t :
  get i db = Some t → s ∈ status_type → commit_ok env = true →
  ∃ db', _set_status env i s db = (Return true, db') ∧
         view i db' = Some (with_status t s) ∧
         length (rows db') = length (rows db) ∧
         ∀ j, j ≠ i → view j db' = view j db.
Proof.
  intros Hget Hs Hc. apply commit_ok_Works in Hc.
  assert (C : commit env [with_status t s] (store i (with_status t s) (rows db))
              = Some {| rows := store i (with_status t s) (rows db) |}).
  { unfold commit. rewrite bool_decide_eq_true_2 by (by rewrite Hc). simpl.
    unfold row_accepted. simpl. by rewrite bool_decide_eq_true_2. }
  unfold _set_status.
  destruct (query_get_cases env i db) as [[Hq _]|[_ ->]]; [congruence|].
  rewrite Hget, C.
  eexists. split; [done|]. destruct db as [l]. simpl.
  split; [|split].
  - rewrite (view_store i i t) by (done || by apply get_Some_id in Hget).
    by rewrite decide_True.
  - unfold store. by rewrite length_map.
  - intros j Hj.
    rewrite (view_store i j t) by (done || by apply get_Some_id in Hget).
    by rewrite decide_False.
Qed.

Lemma set_status_overwrites_witness :
  ∃ db', _set_status (env_at 400) 1 "processing" one_completed = (Return true, db') ∧
         status <$> view 1 db' = Some "processing"%string ∧
         completed_on <$> view 1 db' = Some (Some 220).
Proof.
  destruct (view 1 one_completed) as [t|] eqn:E; [|discriminate E].
  destruct (set_status_overwrites (env_at 400) 1 "processing" one_completed t)
    as (db' & Hrun & Hview & _); [exact E|compute_done|reflexivity|].
  exists db'. split; [exact Hrun|]. rewrite Hview. simpl.
  injection E as <-. split; reflexivity.
Defined.

(** X4.  A task that [process] has taken is not handed out again: after
    [process] returned true for an id, [view] shows it as [processing] and
    [fetch], however the engine presents the rows, does not return a task
    with that id. *)
Theorem processed_task_is_not_fetched env i db db' engine :
  (∀ l, engine l ≡ₚ l) →
  process env i db = (Return true, db') →
  status <$> view i db' = Some "processing"%string ∧
  ∀ t, fetch engine db' = Some t → id t ≠ i.
Proof.
  intros Hperm Hp. unfold process in Hp.
  apply set_status_true in Hp as (t0 & G & C & _).
  destruct db' as [l']. simpl in C. subst l'. destruct db as [l]. split.
  - rewrite (view_store i i t0) by (done || by apply get_Some_id in G).
    by rewrite decide_True.
  - intros t Hf Hid. apply (fetch_Some engine _ t Hperm) in Hf as (Hin & Hst & _).
    simpl in Hin. unfold store in Hin.
    apply list_elem_of_In, in_map_iff in Hin as (x & Hx & _).
    destruct (Z.eqb_spec (id x) i) as [_|Hne].
    + subst t. discriminate Hst.
    + subst t. done.
Qed.

Lemma processed_task_is_not_fetched_witness :
  status <$> view 1 (snd (process (env_at 400) 1 two_adds))
    = Some "processing"%string ∧
  ∀ t, fetch reverse (snd (process (env_at 400) 1 two_adds)) = Some t → id t ≠ 1.
Proof.
  apply (processed_task_is_not_fetched (env_at 400) 1 two_adds _ reverse).
  - intros l. apply reverse_Permutation.
  - reflexivity.
Defined.

(** X5.  When [complete] returns true, [view] of the task gives the old
    row with status [success] or [failure] according to the flag and with
    the clock reading of the call as completion time, also when the task
    was completed before; [view] of any other id gives what it gave
    before. *)
Theorem complete_records_outcome env i success db db' :
  complete env i success db = (Return true, db') →
  ∃ t, get i db = Some t ∧
       view i db' =
       Some (with_completed_on
               (with_status t (if success then "success" else "failure")%string)
               (clock env)) ∧
       ∀ j, j ≠ i → view j db' = view j db.
Proof.
  intros Hc. apply complete_true in Hc as (t & G & C).
  destruct db' as [l']. simpl in C. subst l'. destruct db as [l].
  exists t. split; [done|]. split.
  - rewrite (view_store i i t) by (done || by apply get_Some_id in G).
    by rewrite decide_True.
  - intros j Hj. rewrite (view_store i j t) by (done || by apply get_Some_id in G).
    by rewrite decide_False.
Qed.

Lemma complete_records_outcome_witness :
  ∃ t, get 1 one_completed = Some t ∧
       view 1 (snd (complete (env_at 500) 1 false one_completed)) =
       Some (with_completed_on (with_status t "failure") 500) ∧
       ∀ j, j ≠ 1 →
            view j (snd (complete (env_at 500) 1 false one_completed))
            = view j one_completed.
Proof.
  apply (complete_records_outcome (env_at 500) 1 false one_completed).
  reflexivity.
Defined.

Lemma creation_fields_run_call cls env c db i t :
  view i db = Some t →
  ∃ t', view i (snd (run_call cls env c db)) = Some t' ∧
        creation_fields t' = creation_fields t.
Proof.
  intros Hview.
  assert (Hstore : ∀ j x x', get j db = Some x →
            creation_fields x' = creation_fields x →
            ∃ t', view i {| rows := store j x' (rows db) |} = Some t' ∧
                  creation_fields t' = creation_fields t).
  { intros j x x' Hget Hcf. destruct db as [l]. simpl.
    assert (id x' = j).
    { apply get_Some_id in Hget. unfold creation_fields in Hcf. congruence. }
    rewrite (view_store j i x) by done.
    destruct (decide (i = j)) as [->|]; [|by eexists].
    exists x'. split; [done|]. unfold view in Hview. congruence. }
  assert (Hset : ∀ j s,
            ∃ t', view i (snd (_set_status env j s db)) = Some t' ∧
                  creation_fields t' = creation_fields t).
  { intros j s. destruct (set_status_cases env j s db) as [->|[db' H]];
      [by eexists|].
    rewrite H. simpl. apply set_status_true in H as (x & G & C & _).
    destruct db' as [l]. simpl in C. subst l. by eapply Hstore. }
  destruct c as [args|j s|j|j success]; simpl.
  - unfold add. destruct (a_file_path args) as [p|]; [|by eexists].
    destruct (_ || _); [by eexists|].
    destruct (commit _ _ _) as [db'|] eqn:C; [|by eexists].
    apply commit_Some in C as (_ & C & _). simpl.
    destruct db' as [l]. simpl in C. subst l. rewrite view_app.
    destruct db as [l]. simpl in *. rewrite Hview. by eexists.
  - destruct (Hset j s) as (t' & H1 & H2). exists t'.
    by destruct (_set_status env j s db).
  - destruct (Hset j "processing"%string) as (t' & H1 & H2). exists t'.
    unfold process. by destruct (_set_status env j "processing" db).
  - destruct (complete env j success db) as [r d] eqn:E. simpl.
    destruct (complete_cases env j success db) as [H|[db' H]];
      rewrite E in H; simpl in H.
    + subst d. by eexists.
    + injection H as -> ->. apply complete_true in E as (x & G & C).
      destruct db' as [l]. simpl in C. subst l. by eapply Hstore.
Qed.

(** X6.  A task that [view] shows stays in the store through any further
    calls, and the fields set at its creation (id, hash, path, timeout,
    priority, custom, machine, package, options, platform, [added_on])
    never change: only the status and the completion time do. *)
Theorem creation_fields_are_kept cls h db i t :
  view i db = Some t →
  ∃ t', view i (run_calls cls h db) = Some t' ∧
        creation_fields t' = creation_fields t.
Proof.
  revert db t. induction h as [|[env c] h IH]; intros db t Hview; simpl.
  - by exists t.
  - destruct (creation_fields_run_call cls env c db i t Hview) as (t1 & H1 & Hcf1).
    destruct (IH _ t1 H1) as (t2 & H2 & Hcf2).
    exists t2. split; [done|congruence].
Qed.

Lemma creation_fields_are_kept_witness :
  ∃ t', view 2 (run_calls (define_Task 100)
                  [(env_at 400, Process 2); (env_at 500, Complete 2 false);
                   (env_at 600, Add (add_defaults (Some "/tmp/c"%string)))]
                  two_adds) = Some t' ∧
        file_path t' = "/tmp/b"%string ∧ added_on t' = 100 ∧ priority t' = 1.
Proof.
  destruct (view 2 two_adds) as [t|] eqn:E; [|discriminate E].
  destruct (creation_fields_are_kept (define_Task 100)
              [(env_at 400, Process 2); (env_at 500, Complete 2 false);
               (env_at 600, Add (add_defaults (Some "/tmp/c"%string)))]
              two_adds 2 t E) as (t' & Hview & Hcf).
  exists t'. split; [exact Hview|].
  injection E as <-. unfold creation_fields in Hcf.
  injection Hcf as _ _ Hp _ Hprio _ _ _ _ _ Hadd.
  rewrite Hp, Hprio, Hadd. done.
Defined.

(** X7.  Whatever order the engine presents the rows in, what [fetch]
    returns is a pending task such that no pending task has a higher
    priority, nor the same priority and an earlier [added_on]; and [fetch]
    returns nothing exactly when no task is pending. *)
Theorem fetch_best_pending engine db :
  (∀ l, engine l ≡ₚ l) →
  (∀ t, fetch engine db = Some t →
        t ∈ rows db ∧ status t = "pending"%string ∧
        ∀ t', t' ∈ rows db → status t' = "pending"%string →
              priority t' ≤ priority t ∧
              (priority t' = priority t → added_on t ≤ added_on t')) ∧
  (fetch engine db = None ↔ ∀ t, t ∈ rows db → status t ≠ "pending"%string).
Proof.
  intros Hperm. split.
  - intros t. by apply fetch_Some.
  - by apply fetch_None.
Qed.

Lemma fetch_best_pending_witness :
  (∀ t, fetch reverse two_adds = Some t →
        t ∈ rows two_adds ∧ status t = "pending"%string ∧
        ∀ t', t' ∈ rows two_adds → status t' = "pending"%string →
              priority t' ≤ priority t ∧
              (priority t' = priority t → added_on t ≤ added_on t')) ∧
  (fetch reverse two_adds = None ↔
   ∀ t, t ∈ rows two_adds → status t ≠ "pending"%string).
Proof.
  apply (fetch_best_pending reverse two_adds).
  intros l. apply reverse_Permutation.
Defined.

End TaskStoreMore.

Section TaskStoreListing.
Import TaskStore TaskStoreSamples TaskStoreQueries.

Variable status_leb : string → string → bool.
Hypothesis status_leb_total : ∀ a b, status_leb a b = true ∨ status_leb b a = true.
Hypothesis status_leb_trans :
  ∀ a b c, status_leb a b = true → status_leb b c = true → status_leb a c = true.

Local Instance list_order_le_total : Total (list_order_le status_leb).
Proof.
  intros a b. unfold list_order_le.
  destruct (status_leb_total (status a) (status b)) as [H|H];
    destruct (status_leb (status a) (status b)) eqn:E1;
    destruct (status_leb (status b) (status a)) eqn:E2; try discriminate; try lia;
    auto.
  all: destruct (Z.lt_trichotomy (added_on a) (added_on b)) as [?|[?|?]];
    destruct (Z.le_ge_cases (id a) (id b)); intuition lia.
Qed.

Local Instance list_order_le_trans : Transitive (list_order_le status_leb).
Proof.
  intros a b c. unfold list_order_le.
  pose proof (status_leb_trans (status a) (status b) (status c)).
  pose proof (status_leb_trans (status c) (status a) (status b)).
  pose proof (status_leb_trans (status b) (status c) (status a)).
  pose proof (status_leb_trans (status c) (status b) (status a)).
  destruct (status_leb (status a) (status b));
    destruct (status_leb (status b) (status a));
    destruct (status_leb (status b) (status c));
    destruct (status_leb (status c) (status b));
    destruct (status_leb (status a) (status c));
    destruct (status_leb (status c) (status a));
    intuition (try discriminate; try lia).
Qed.

Lemma limit_rows_prefix {A} limit (l : list A) :
  limit_rows limit l `prefix_of` l ∧
  length (limit_rows limit l)
  = match limit with Some n => Nat.min n (length l) | None => length l end.
Proof.
  destruct limit as [n|]; simpl.
  - split; [apply prefix_take|apply length_take].
  - done.
Qed.

Lemma StronglySorted_prefix {A} (R : relation A) (l k : list A) :
  l `prefix_of` k → StronglySorted R k → StronglySorted R l.
Proof.
  intros [m ->] H. by apply StronglySorted_app_1_l in H.
Qed.

(** X8.  For an engine order on statuses that is total and transitive:
    [list] returns tasks of the store, each row at most once, in the order
    status, then [added_on], then id descending, and a limit cuts the full
    listing to its first rows.  On a store whose ids are distinct the
    listing does not depend on the order in which the engine presents the
    rows. *)
Theorem list_is_sorted_and_engine_independent engine engine' limit db :
  (∀ l, engine l ≡ₚ l) → (∀ l, engine' l ≡ₚ l) →
  StronglySorted (list_order_le status_leb)
                 (Database_list status_leb engine limit db) ∧
  Database_list status_leb engine limit db
    `prefix_of` Database_list status_leb engine None db ∧
  Database_list status_leb engine None db ≡ₚ rows db ∧
  length (Database_list status_leb engine limit db)
    = match limit with
      | Some n => Nat.min n (length (rows db))
      | None => length (rows db)
      end ∧
  (NoDup (id <$> rows db) →
   Database_list status_leb engine limit db
   = Database_list status_leb engine' limit db).
Proof.
  intros Hperm Hperm'. unfold Database_list.
  set (full := merge_sort (list_order_le status_leb) (engine (rows db))).
  assert (Hsorted : StronglySorted (list_order_le status_leb) full)
    by (apply StronglySorted_merge_sort; apply _).
  assert (Hfull : full ≡ₚ rows db).
  { unfold full. by rewrite merge_sort_Permutation. }
  destruct (limit_rows_prefix limit full) as [Hpre Hlen].
  split; [by eapply StronglySorted_prefix|].
  split; [done|]. split; [done|]. split.
  - rewrite Hlen. by rewrite (Permutation_length Hfull).
  - intros Hnd. f_equal. unfold full.
    apply (StronglySorted_unique_strong (list_order_le status_leb)).
    + intros x y Hx Hy Hxy Hyx.
      rewrite merge_sort_Permutation, Hperm in Hx.
      rewrite merge_sort_Permutation, Hperm' in Hy.
      apply (NoDup_fmap_eq id (rows db)); [done|done|done|].
      unfold list_order_le in Hxy, Hyx.
      destruct (status_leb (status x) (status y));
        destruct (status_leb (status y) (status x));
        intuition (try discriminate; try lia).
    + apply StronglySorted_merge_sort; apply _.
    + apply StronglySorted_merge_sort; apply _.
    + by rewrite !merge_sort_Permutation, Hperm, Hperm'.
Qed.

(** X9.  [search] returns exactly the tasks of the store that carry the
    given hash (for [None], those without a hash), each as often as the
    store holds it, in the order of [list]. *)
Theorem search_returns_the_matches engine h db :
  (∀ l, engine l ≡ₚ l) →
  StronglySorted (list_order_le status_leb) (search status_leb engine h db) ∧
  search status_leb engine h db
    ≡ₚ List.filter (λ t, bool_decide (md5 t = h)) (rows db) ∧
  ∀ t, t ∈ search status_leb engine h db ↔ t ∈ rows db ∧ md5 t = h.
Proof.
  intros Hperm. unfold search.
  assert (Hfilter : List.filter (λ t, bool_decide (md5 t = h)) (engine (rows db))
                    ≡ₚ List.filter (λ t, bool_decide (md5 t = h)) (rows db)).
  { generalize (Hperm (rows db)). generalize (engine (rows db)) (rows db).
    clear. intros l1 l2 H. induction H; simpl.
    - done.
    - destruct (bool_decide (md5 x = h)); [by constructor|done].
    - destruct (bool_decide (md5 x = h)); destruct (bool_decide (md5 y = h));
        try done. apply perm_swap.
    - by etrans. }
  split; [apply StronglySorted_merge_sort; apply _|].
  split; [by rewrite merge_sort_Permutation|].
  intros t. rewrite merge_sort_Permutation, Hfilter.
  rewrite list_elem_of_In, filter_In, <- list_elem_of_In.
  by rewrite bool_decide_eq_true.
Qed.

End TaskStoreListing.

Section TaskStoreListingWitness.
Import TaskStore TaskStoreSamples TaskStoreQueries.

Lemma declaration_leb_total a b :
  declaration_leb a b = true ∨ declaration_leb b a = true.
Proof.
  unfold declaration_leb.
  destruct (Nat.leb_spec (status_rank a) (status_rank b)); [by left|right].
  apply Nat.leb_le. lia.
Qed.

Lemma declaration_leb_trans a b c :
  declaration_leb a b = true → declaration_leb b c = true →
  declaration_leb a c = true.
Proof. unfold declaration_leb. rewrite !Nat.leb_le. lia. Qed.

Lemma list_is_sorted_and_engine_independent_witness :
  StronglySorted (list_order_le declaration_leb)
                 (Database_list declaration_leb reverse (Some 1%nat) two_adds) ∧
  Database_list declaration_leb reverse (Some 1%nat) two_adds
    `prefix_of` Database_list declaration_leb reverse None two_adds ∧
  Database_list declaration_leb reverse None two_adds ≡ₚ rows two_adds ∧
  length (Database_list declaration_leb reverse (Some 1%nat) two_adds)
    = Nat.min 1 (length (rows two_adds)) ∧
  (NoDup (id <$> rows two_adds) →
   Database_list declaration_leb reverse (Some 1%nat) two_adds
   = Database_list declaration_leb (λ l, l) (Some 1%nat) two_adds).
Proof.
  apply (list_is_sorted_and_engine_independent declaration_leb
           declaration_leb_total declaration_leb_trans
           reverse (λ l, l) (Some 1%nat) two_adds).
  - intros l. apply reverse_Permutation.
  - done.
Defined.

Lemma search_returns_the_matches_witness :
  StronglySorted (list_order_le declaration_leb)
                 (search declaration_leb reverse None two_adds) ∧
  search declaration_leb reverse None two_adds
    ≡ₚ List.filter (λ t, bool_decide (md5 t = None)) (rows two_adds) ∧
  ∀ t, t ∈ search declaration_leb reverse None two_adds
       ↔ t ∈ rows two_adds ∧ md5 t = None.
Proof.
  apply (search_returns_the_matches declaration_leb
           declaration_leb_total declaration_leb_trans reverse None two_adds).
  intros l. apply reverse_Permutation.
Defined.

End TaskStoreListingWitness.

(** * Further properties of the pipeline function *)

Section ProcessMore.
Import Process ProcessSamples.

(** X13.  Without [report], [process] only runs the four processing and
    signature stages: whatever the globals of the module, it changes
    neither the analysis store nor any task status, runs no reporting and
    deletes no file, and it returns normally exactly when none of the four
    stages raises. *)
Theorem process_without_report g ext target copy_path auto w :
  snd (process g ext target copy_path false auto w) = w ∧
  (fst (process g ext target copy_path false auto w) = Return tt ↔
   stage_raises ext RunProcessing_first = false ∧
   stage_raises ext GetFeeds = false ∧
   stage_raises ext RunProcessing = false ∧
   stage_raises ext RunSignatures = false).
Proof.
  unfold process, run_stage, when, mbind, SE_bind, throw, mret, SE_ret.
  destruct (stage_raises ext RunProcessing_first); simpl; [split; [done|]; intuition discriminate|].
  destruct (stage_raises ext GetFeeds); simpl; [split; [done|]; intuition discriminate|].
  destruct (stage_raises ext RunProcessing); simpl; [split; [done|]; intuition discriminate|].
  destruct (stage_raises ext RunSignatures); simpl; [split; [done|]; intuition discriminate|].
  done.
Qed.

End ProcessMore.

(** * Further properties of the scheduling loop *)

Section LoopMore.
Import Autoprocess AutoprocessSamples AutoprocessNotions.

(** The five ways a pass goes, with what decides between them. *)
Lemma iteration_detail cfg env st :
  (interrupt env = true ∧
   iteration cfg env st = (Raise KeyboardInterrupt, st)) ∨
  (interrupt env = false ∧
   parallel cfg ≤ Z.of_nat (length (pending_results (after_reap env st))) ∧
   iteration cfg env st = (Return tt, after_reap env st)) ∨
  (interrupt env = false ∧
   Z.of_nat (length (pending_results (after_reap env st))) < parallel cfg ∧
   first_free cfg env st = None ∧
   iteration cfg env st = (Return tt, after_reap env st)) ∨
  (∃ t, interrupt env = false ∧
        Z.of_nat (length (pending_results (after_reap env st))) < parallel cfg ∧
        first_free cfg env st = Some t ∧
        task_category t = "file"%string ∧
        sample_sha256 env (task_sample_id t) = None ∧
        iteration cfg env st = (Raise AttributeError, after_reap env st)) ∨
  (∃ t cp, interrupt env = false ∧
           Z.of_nat (length (pending_results (after_reap env st))) < parallel cfg ∧
           first_free cfg env st = Some t ∧
           ((task_category t = "file"%string ∧
             ∃ sha, sample_sha256 env (task_sample_id t) = Some sha ∧
                    cp = Some (binary_path cfg sha)) ∨
            (task_category t ≠ "file"%string ∧ cp = None)) ∧
           iteration cfg env st = (Return tt, after_submit env st t cp)).
Proof.
  rewrite iteration_unfold. fold (first_free cfg env st).
  destruct (interrupt env); [by left|]. right.
  destruct (Z.leb_spec (parallel cfg)
              (Z.of_nat (length (pending_results (after_reap env st)))))
    as [Hfull|Hroom]; [by left|]. right.
  destruct (first_free cfg env st) as [t|] eqn:F; [|by left]. right.
  unfold submit, mbind, SE_bind, apply_async, gets, modify, mret, SE_ret, throw.
  destruct (String.eqb_spec (task_category t) "file") as [Hcat|Hcat].
  - destruct (sample_sha256 env (task_sample_id t)) as [sha|] eqn:S; simpl.
    + right. exists t, (Some (binary_path cfg sha)).
      repeat split; try done. left. split; [done|]. by exists sha.
    + left. by exists t.
  - right. exists t, None. repeat split; try done. by right.
Qed.

Lemma loop_invariant_iteration cfg (I : state → Prop) :
  (∀ env st, guard cfg st = true → I st → I (snd (iteration cfg env st))) →
  ∀ envs st, I st → I (final (loop cfg envs st)).
Proof.
  intros Hpass envs. induction envs as [|env envs IH]; intros st Hst; simpl.
  - by destruct (guard cfg st).
  - destruct (guard cfg st) eqn:Hg; [|done].
    pose proof (Hpass env st Hg Hst) as Hst'.
    destruct (iteration cfg env st) as [[[]|e] st']; simpl in Hst'.
    + by apply IH.
    + by destruct e.
Qed.

Lemma first_free_Some cfg env st t :
  first_free cfg env st = Some t →
  t ∈ db (after_reap env st) ∧ task_status t = TASK_COMPLETED ∧
  in_flight (task_id t) (pending_results (after_reap env st)) = false.
Proof.
  unfold first_free, list_tasks. intros H. apply find_some in H as [Hin Hfree].
  apply negb_true_iff in Hfree. split; [|split; [|done]].
  - apply list_elem_of_In, elem_of_take in Hin as (k & Hk & _).
    apply list_elem_of_lookup_2 in Hk.
    rewrite merge_sort_Permutation in Hk.
    by apply list_elem_of_In, filter_In in Hk as [Hk _]; apply list_elem_of_In.
  - apply list_elem_of_In, elem_of_take in Hin as (k & Hk & _).
    apply list_elem_of_lookup_2 in Hk.
    rewrite merge_sort_Permutation in Hk.
    apply list_elem_of_In, filter_In in Hk as [_ Hk]. by apply String.eqb_eq.
Qed.

(** X14.  At the state the loop stands at after any number of passes,
    every in-flight record stands for the pool job of its handle: the job
    is for the same task id, target and copy path; and no two records have
    the same handle. *)
Theorem inflight_records_mirror_pool cfg envs db0 :
  (∀ r, r ∈ pending_results (final (autoprocess cfg envs db0)) →
        mirrors (final (autoprocess cfg envs db0)) r) ∧
  NoDup (ar <$> pending_results (final (autoprocess cfg envs db0))).
Proof.
  apply (loop_invariant_iteration cfg
           (λ st, (∀ r, r ∈ pending_results st → mirrors st r) ∧
                  NoDup (ar <$> pending_results st))).
  - intros env st _ [Hm Hnd].
    assert (Hmid : (∀ r, r ∈ pending_results (after_reap env st) →
                         mirrors (after_reap env st) r) ∧
                   NoDup (ar <$> pending_results (after_reap env st))).
    { split.
      - intros r Hr. simpl in Hr.
        apply list_elem_of_In, filter_In in Hr as [Hr _].
        apply list_elem_of_In in Hr. exact (Hm r Hr).
      - simpl. eapply sublist_NoDup; [exact Hnd|].
        apply fmap_sublist, filter_sublist. }
    destruct (iteration_detail cfg env st)
      as [[_ ->]|[(_ & _ & ->)|[(_ & _ & _ & ->)|[(t & _ & _ & _ & _ & _ & ->)|
          (t & cp & _ & _ & _ & _ & ->)]]]]; simpl; try done.
    destruct Hmid as [Hm' Hnd']. simpl in Hm', Hnd'. split.
    + intros r Hr. apply elem_of_app in Hr as [Hr|Hr].
      * destruct (Hm' r Hr) as (j & Hj & Hrest). exists j. simpl.
        split; [by apply lookup_app_l_Some|done].
      * apply list_elem_of_singleton in Hr as ->.
        exists {| job_target := task_target t; job_copy_path := cp;
                  job_task := t |}. simpl.
        split; [|done]. rewrite lookup_app_r by done.
        by rewrite Nat.sub_diag.
    + rewrite fmap_app. simpl. apply NoDup_app. split; [done|]. split.
      * intros h Hh Hh'. apply list_elem_of_singleton in Hh' as ->.
        apply list_elem_of_fmap in Hh as (r & Hr1 & Hr2).
        destruct (Hm' r Hr2) as (j & Hj & _). simpl in Hj.
        apply lookup_lt_Some in Hj. lia.
      * apply NoDup_singleton.
  - split; simpl; [|constructor]. intros r Hr. by apply elem_of_nil in Hr.
Qed.

(** The path of a stored binary for some roots: no separator is added
    after a root that ends with one. *)
Lemma binary_path_examples :
  binary_path {| maxcount := 0; parallel := 1; CUCKOO_ROOT := "/opt/cuckoo" |} "00"
    = "/opt/cuckoo/storage/binaries/00"%string ∧
  binary_path {| maxcount := 0; parallel := 1; CUCKOO_ROOT := "/opt/cuckoo/" |} "00"
    = "/opt/cuckoo/storage/binaries/00"%string ∧
  binary_path {| maxcount := 0; parallel := 1; CUCKOO_ROOT := "/" |} "00"
    = "/storage/binaries/00"%string ∧
  binary_path {| maxcount := 0; parallel := 1; CUCKOO_ROOT := "" |} "00"
    = "storage/binaries/00"%string.
Proof. repeat split; reflexivity. Qed.


Lemma find_take_sorted {A} (R : relation A) (P : A → bool) `{!Reflexive R}
    (s : list A) : ∀ n t,
  StronglySorted R s → List.find P (take n s) = Some t →
  ∀ t', t' ∈ s → P t' = true → R t t'.
Proof.
  induction s as [|x s IH]; intros n t Hs Hf t' Ht' HP.
  - by apply elem_of_nil in Ht'.
  - destruct n as [|n]; [done|]. simpl in Hf.
    apply StronglySorted_inv in Hs as [Hs Hall].
    destruct (P x) eqn:Px.
    + injection Hf as <-. apply elem_of_cons in Ht' as [->|Ht']; [done|].
      by eapply Forall_forall in Hall.
    + apply elem_of_cons in Ht' as [->|Ht']; [congruence|].
      by eapply IH.
Qed.

Local Instance completed_on_le_refl : Reflexive completed_on_le.
Proof. intros a. unfold completed_on_le. lia. Qed.

Local Instance completed_on_le_total : Total completed_on_le.
Proof. intros a b. unfold completed_on_le. lia. Qed.

Local Instance completed_on_le_trans : Transitive completed_on_le.
Proof. intros a b c. unfold completed_on_le. lia. Qed.

(** X16.  When a pass gives a job to the pool, the task of the job is, in
    the store as the maintenance loop left it, a completed task that is
    not in flight, and no completed task that is not in flight was
    completed earlier: the oldest waiting task goes first. *)
Theorem pass_submits_oldest_waiting cfg env st j :
  pool (snd (iteration cfg env st)) = pool st ++ [j] →
  job_task j ∈ db (after_reap env st) ∧
  task_status (job_task j) = TASK_COMPLETED ∧
  in_flight (task_id (job_task j)) (pending_results (after_reap env st)) = false ∧
  ∀ t', t' ∈ db (after_reap env st) →
        task_status t' = TASK_COMPLETED →
        in_flight (task_id t') (pending_results (after_reap env st)) = false →
        task_completed_on (job_task j) ≤ task_completed_on t'.
Proof.
  intros Hpool.
  assert (Hno : pool st ≠ pool st ++ [j]).
  { intros H. apply (f_equal length) in H. rewrite length_app in H. simpl in H. lia. }
  destruct (iteration_detail cfg env st)
    as [[_ H]|[(_ & _ & H)|[(_ & _ & _ & H)|[(t & _ & _ & _ & _ & _ & H)|
        (t & cp & _ & _ & Hfree & _ & H)]]]]; rewrite H in Hpool; simpl in Hpool;
    try done.
  apply app_inv_head in Hpool. injection Hpool as <-. simpl.
  destruct (first_free_Some cfg env st t Hfree) as (Hin & Hstatus & Hflight).
  split; [done|]. split; [done|]. split; [done|].
  intros t' Hin' Hstatus' Hflight'.
  unfold first_free, list_tasks in Hfree.
  assert (Hs : StronglySorted completed_on_le
                 (merge_sort completed_on_le
                    (List.filter (λ t, String.eqb (task_status t) TASK_COMPLETED)
                                 (db (after_reap env st)))))
    by (apply StronglySorted_merge_sort; apply _).
  apply (find_take_sorted completed_on_le _ _ _ t Hs Hfree t').
  - rewrite merge_sort_Permutation. apply list_elem_of_In, filter_In.
    split; [by apply list_elem_of_In|]. by apply String.eqb_eq.
  - apply negb_true_iff. exact Hflight'.
Qed.

Lemma pass_submits_oldest_waiting_witness :
  task_id (job_task {| job_target := "http://example.org/"; job_copy_path := None;
                       job_task := completed_task 1 10 |}) = 1 ∧
  ∀ t', t' ∈ db (after_reap quiet (initial three_completed)) →
        task_status t' = TASK_COMPLETED →
        in_flight (task_id t')
                  (pending_results (after_reap quiet (initial three_completed)))
          = false →
        10 ≤ task_completed_on t'.
Proof.
  split; [reflexivity|].
  apply (pass_submits_oldest_waiting two_of_three quiet (initial three_completed)
           {| job_target := "http://example.org/"; job_copy_path := None;
              job_task := completed_task 1 10 |}).
  reflexivity.
Defined.

Lemma all_in_flight_length (tasks : list task) (pending : list submission) :
  NoDup (task_id <$> tasks) →
  List.find (λ t, negb (in_flight (task_id t) pending)) tasks = None →
  (length tasks ≤ length pending)%nat.
Proof.
  intros Hnd Hnone.
  rewrite <- (length_fmap task_id tasks), <- (length_fmap tid pending).
  apply submseteq_length, NoDup_submseteq; [done|].
  intros i Hi. apply list_elem_of_fmap in Hi as (t & -> & Ht).
  apply list_elem_of_In in Ht.
  pose proof (find_none _ _ Hnone t Ht) as Hf. apply negb_false_iff in Hf.
  unfold in_flight in Hf. apply existsb_exists in Hf as (i & Hi & Heq).
  apply Z.eqb_eq in Heq as ->. by apply list_elem_of_In.
Qed.

(** X17.  When a pass is not interrupted, fewer than [parallel]
    submissions remain after the maintenance loop, and the store then
    holds at least [parallel] completed tasks, all task ids being
    distinct, the pass finds a task it does not know: it gives one job to
    the pool, unless the sample of that task is missing and
    [AttributeError] is raised. *)
Theorem pass_finds_unknown_task cfg env st :
  interrupt env = false →
  Z.of_nat (length (pending_results (after_reap env st))) < parallel cfg →
  NoDup (task_id <$> db (after_reap env st)) →
  parallel cfg ≤
    Z.of_nat (length (List.filter
                        (λ t, String.eqb (task_status t) TASK_COMPLETED)
                        (db (after_reap env st)))) →
  fst (iteration cfg env st) = Raise AttributeError ∨
  length (pool (snd (iteration cfg env st))) = S (length (pool st)).
Proof.
  intros Hint Hroom Hnd Hmany.
  destruct (iteration_detail cfg env st)
    as [[H _]|[(_ & H & _)|[(_ & _ & Hnone & _)|[(t & _ & _ & _ & _ & _ & ->)|
        (t & cp & _ & _ & _ & _ & ->)]]]]; simpl.
  - congruence.
  - lia.
  - exfalso. unfold first_free in Hnone.
    apply all_in_flight_length in Hnone.
    + unfold list_tasks in Hnone. rewrite length_take in Hnone.
      rewrite (Permutation_length (merge_sort_Permutation _ _)) in Hnone. lia.
    + unfold list_tasks.
      eapply sublist_NoDup; [|apply fmap_sublist, sublist_take].
      rewrite merge_sort_Permutation.
      eapply sublist_NoDup; [exact Hnd|]. apply fmap_sublist, filter_sublist.
  - by left.
  - right. rewrite length_app. simpl. lia.
Qed.

Lemma pass_finds_unknown_task_witness :
  fst (iteration two_of_three quiet (initial three_completed)) = Raise AttributeError ∨
  length (pool (snd (iteration two_of_three quiet (initial three_completed))))
    = S (length (pool (initial three_completed))).
Proof.
  apply (pass_finds_unknown_task two_of_three quiet (initial three_completed)).
  - reflexivity.
  - simpl. lia.
  - compute_done.
  - simpl. lia.
Defined.

(** X18.  With [maxcount] at 0 the loop is never left through its
    condition, however many passes it makes; with a negative [maxcount] it
    is left before the first pass, with nothing submitted and the store
    untouched. *)
Theorem maxcount_zero_or_negative cfg envs db0 :
  (maxcount cfg = 0 → finished (autoprocess cfg envs db0) = false) ∧
  (maxcount cfg < 0 → autoprocess cfg envs db0 = Finished (initial db0)).
Proof.
  split.
  - intros H0. unfold autoprocess. generalize (initial db0).
    induction envs as [|env envs IH]; intros st; simpl;
      rewrite (guard_unlimited cfg st H0); [done|].
    destruct (iteration cfg env st) as [[[]|e] st']; [apply IH|by destruct e].
  - intros Hneg. unfold autoprocess.
    assert (Hg : guard cfg (initial db0) = false).
    { unfold guard. simpl. apply orb_false_iff. lia. }
    destruct envs; simpl; by rewrite Hg.
Qed.

Lemma maxcount_zero_or_negative_witness :
  finished (autoprocess unlimited [all_done; all_done; all_done] three_completed)
    = false.
Proof.
  apply (proj1 (maxcount_zero_or_negative unlimited
                  [all_done; all_done; all_done] three_completed)).
  reflexivity.
Defined.

(** X19.  When the loop condition holds, the pass is not interrupted,
    fewer than [parallel] submissions remain after the maintenance loop,
    and the task the pass settles on is of category [file] but has no
    sample in the store, the loop ends there with [AttributeError]: the
    task is not submitted, [count] and the pool are as before the pass,
    and no later pass is made. *)
Theorem missing_sample_stops_the_loop cfg env envs st t :
  guard cfg st = true →
  interrupt env = false →
  Z.of_nat (length (pending_results (after_reap env st))) < parallel cfg →
  first_free cfg env st = Some t →
  task_category t = "file"%string →
  sample_sha256 env (task_sample_id t) = None →
  loop cfg (env :: envs) st = Crashed AttributeError (after_reap env st) ∧
  count (after_reap env st) = count st ∧
  pool (after_reap env st) = pool st.
Proof.
  intros Hg Hint Hroom Hfree Hcat Hsample. simpl. rewrite Hg.
  destruct (iteration_detail cfg env st)
    as [[H _]|[(_ & H & _)|[(_ & _ & H & _)|[(t' & _ & _ & H & _ & _ & ->)|
        (t' & cp & _ & _ & H & Hcp & _)]]]]; try congruence; try lia; [done|].
  exfalso. assert (t' = t) as -> by congruence.
  destruct Hcp as [(_ & sha & Hs & _)|(Hc & _)]; congruence.
Qed.

Lemma missing_sample_stops_the_loop_witness :
  loop two_of_three [quiet; all_done] one_file_waiting
    = Crashed AttributeError (after_reap quiet one_file_waiting) ∧
  count (after_reap quiet one_file_waiting) = count one_file_waiting ∧
  pool (after_reap quiet one_file_waiting) = pool one_file_waiting.
Proof.
  apply (missing_sample_stops_the_loop two_of_three quiet [all_done]
           one_file_waiting (completed_file 5 50)); reflexivity.
Defined.

Lemma productive_iteration cfg env st :
  productive cfg env st →
  ∃ t cp, iteration cfg env st = (Return tt, after_submit env st t cp).
Proof.
  intros (Hint & Hroom & t & Hfree & Hsample).
  destruct (iteration_detail cfg env st)
    as [[H _]|[(_ & H & _)|[(_ & _ & H & _)|[(t' & _ & _ & H & Hcat & Hs & _)|
        (t' & cp & _ & _ & _ & _ & H)]]]].
  - congruence.
  - lia.
  - congruence.
  - assert (t' = t) as -> by congruence.
    destruct (Hsample Hcat) as [sha Hsha]. congruence.
  - by exists t', cp.
Qed.

Lemma productive_loop cfg : 0 < maxcount cfg → ∀ envs st,
  all_productive cfg envs st →
  count st = Z.of_nat (length (pool st)) →
  count st ≤ maxcount cfg →
  ((Z.to_nat (maxcount cfg - count st) ≤ length envs)%nat →
   ∃ st', loop cfg envs st = Finished st' ∧
          count st' = maxcount cfg ∧
          Z.of_nat (length (pool st')) = maxcount cfg ∧
          loop cfg (take (Z.to_nat (maxcount cfg - count st)) envs) st
            = Finished st') ∧
  ((length envs < Z.to_nat (maxcount cfg - count st))%nat →
   ∃ st', loop cfg envs st = Looping st' ∧
          count st' = count st + Z.of_nat (length envs) ∧
          count st' = Z.of_nat (length (pool st'))).
Proof.
  intros Hmax envs.
  induction envs as [|env envs IH]; intros st Hprod Hc Hle.
  - split; simpl; intros Hfuel.
    + assert (guard cfg st = false) as Hg by (apply guard_false; [done|lia]).
      exists st. rewrite take_nil. simpl. rewrite Hg.
      split; [done|]. split; [lia|]. split; [lia|done].
    + destruct (guard cfg st) eqn:Hg.
      * exists st. split; [done|]. split; [lia|done].
      * apply guard_false in Hg; [lia|done].
  - simpl in Hprod. destruct (guard cfg st) eqn:Hg.
    + destruct (Hprod eq_refl) as [Hp Hrest].
      apply guard_true in Hg as Hlt; [|done].
      destruct (productive_iteration cfg env st Hp) as (t & cp & Hit).
      rewrite Hit in Hrest. simpl in Hrest.
      destruct (IH (after_submit env st t cp) Hrest) as [IH1 IH2];
        [simpl; rewrite length_app; simpl; lia|simpl; lia|].
      simpl in IH1, IH2.
      replace (Z.to_nat (maxcount cfg - count st))
        with (S (Z.to_nat (maxcount cfg - (count st + 1)))) by lia.
      split; intros Hfuel; simpl in Hfuel.
      * destruct IH1 as (st' & H1 & H2 & H3 & H4); [lia|].
        exists st'. simpl. rewrite Hg, Hit. done.
      * destruct IH2 as (st' & H1 & H2 & H3); [lia|].
        exists st'. simpl. rewrite Hg, Hit. split; [done|]. split; [lia|done].
    + apply guard_false in Hg as Hge; [|done].
      replace (Z.to_nat (maxcount cfg - count st)) with 0%nat by lia.
      split; intros Hfuel; [|simpl in Hfuel; lia].
      exists st. simpl. rewrite Hg. split; [done|]. split; [lia|]. split; [lia|done].
Qed.

(** X20.  With [maxcount] positive, if every pass the loop makes is
    productive (it is not interrupted, fewer than [parallel] submissions
    remain after the maintenance loop, the query holds a task that is not
    in flight, and the sample of that task is there if it is a file task),
    then the loop is left through its condition after exactly [maxcount]
    passes, with [maxcount] jobs given to the pool, and after fewer passes
    it is still running, having given one job to the pool in each. *)
Theorem productive_passes_finish_the_loop cfg envs db0 :
  0 < maxcount cfg →
  all_productive cfg envs (initial db0) →
  ((Z.to_nat (maxcount cfg) ≤ length envs)%nat →
   ∃ st, autoprocess cfg envs db0 = Finished st ∧
         count st = maxcount cfg ∧
         Z.of_nat (length (pool st)) = maxcount cfg ∧
         autoprocess cfg (take (Z.to_nat (maxcount cfg)) envs) db0
           = Finished st) ∧
  ((length envs < Z.to_nat (maxcount cfg))%nat →
   ∃ st, autoprocess cfg envs db0 = Looping st ∧
         count st = Z.of_nat (length envs) ∧
         Z.of_nat (length (pool st)) = Z.of_nat (length envs)).
Proof.
  intros Hmax Hprod. unfold autoprocess.
  destruct (productive_loop cfg Hmax envs (initial db0) Hprod) as [H1 H2];
    [done|simpl; lia|].
  simpl in H1, H2. rewrite Z.sub_0_r in H1, H2. split; [exact H1|].
  intros Hfuel. destruct (H2 Hfuel) as (st & Hrun & Hc & Hp).
  exists st. split; [done|]. split; lia.
Qed.

(** The first job fails, as every job that runs [process] with [report]
    does; the second pass marks its task and hands out the next one. *)
Lemma productive_passes_finish_the_loop_witness :
  ∃ st, autoprocess two_of_three [quiet; failing 0; quiet] three_completed
          = Finished st ∧
        count st = maxcount two_of_three ∧
        Z.of_nat (length (pool st)) = maxcount two_of_three ∧
        autoprocess two_of_three
          (take (Z.to_nat (maxcount two_of_three)) [quiet; failing 0; quiet])
          three_completed = Finished st.
Proof.
  assert (Hmax : 0 < maxcount two_of_three) by (simpl; lia).
  assert (Hprod : all_productive two_of_three [quiet; failing 0; quiet]
                    (initial three_completed)).
  { intros _. split.
    { split; [reflexivity|]. split; [simpl; lia|].
      eexists. split; [reflexivity|]. intros H. discriminate H. }
    intros _. split.
    { split; [reflexivity|]. split; [simpl; lia|].
      eexists. split; [reflexivity|]. intros H. discriminate H. }
    intros H. discriminate H. }
  apply (proj1 (productive_passes_finish_the_loop two_of_three
                  [quiet; failing 0; quiet] three_completed Hmax Hprod)).
  simpl. lia.
Defined.

End LoopMore.

(** * Properties of the host and DNS bookkeeping *)

Section PcapFacts.
Import Pcap.

Lemma add_host_spec conv a hosts :
  conv a = a →
  NoDup hosts →
  NoDup (add_host conv a hosts) ∧
  hosts `prefix_of` add_host conv a hosts ∧
  ∀ b, b ∈ add_host conv a hosts ↔ b ∈ hosts ∨ b = a.
Proof.
  intros Hconv Hnd. unfold add_host. rewrite Hconv. case_bool_decide as Hin.
  - split; [done|]. split; [done|]. intros b. split; [by left|].
    intros [Hb| ->]; done.
  - split; [|split].
    + apply NoDup_app. split; [done|]. split; [|apply NoDup_singleton].
      intros x Hx Hx'. apply list_elem_of_singleton in Hx' as ->. done.
    + by apply prefix_app_r.
    + intros b. rewrite elem_of_app, list_elem_of_singleton. done.
Qed.

Lemma add_hosts_step conv c st :
  (∀ a, a ∈ looked_at c → conv a = a) →
  NoDup (unique_hosts st) →
  NoDup (unique_hosts (snd (_add_hosts conv c st))) ∧
  unique_hosts st `prefix_of` unique_hosts (snd (_add_hosts conv c st)) ∧
  ∀ a, a ∈ unique_hosts (snd (_add_hosts conv c st)) ↔
       a ∈ unique_hosts st ∨ a ∈ looked_at c.
Proof.
  intros Hconv Hnd. unfold _add_hosts, looked_at in *.
  destruct (src c) as [s|]; simpl.
  - assert (Hs : conv s = s) by (apply Hconv; left).
    destruct (add_host_spec conv s (unique_hosts st) Hs Hnd) as (Hnd1 & Hp1 & Hm1).
    destruct (dst c) as [d|]; simpl.
    + assert (Hd : conv d = d) by (apply Hconv; right; left).
      destruct (add_host_spec conv d _ Hd Hnd1) as (Hnd2 & Hp2 & Hm2).
      split; [done|]. split; [by etrans|].
      intros a. rewrite Hm2, Hm1, !elem_of_cons, elem_of_nil. tauto.
    + split; [done|]. split; [done|].
      intros a. rewrite Hm1, list_elem_of_singleton. tauto.
  - split; [done|]. split; [done|]. intros a. rewrite elem_of_nil. tauto.
Qed.

(** X21.  When [convert_to_printable] leaves the addresses at hand
    unchanged, as it does for printable text, a run of [_add_hosts] calls
    on a list of hosts without duplicates gives a list without duplicates
    that begins with the old list and holds exactly the old hosts and the
    addresses the calls looked at. *)
Theorem add_hosts_keeps_hosts_unique conv cs st :
  (∀ c a, c ∈ cs → a ∈ looked_at c → conv a = a) →
  NoDup (unique_hosts st) →
  NoDup (unique_hosts (add_all_hosts conv cs st)) ∧
  unique_hosts st `prefix_of` unique_hosts (add_all_hosts conv cs st) ∧
  ∀ a, a ∈ unique_hosts (add_all_hosts conv cs st) ↔
       a ∈ unique_hosts st ∨ ∃ c, c ∈ cs ∧ a ∈ looked_at c.
Proof.
  unfold add_all_hosts. revert st.
  induction cs as [|c cs IH]; intros st Hconv Hnd; simpl.
  - split; [done|]. split; [done|]. intros a. split; [by left|].
    intros [H|(c & Hc & _)]; [done|]. by apply elem_of_nil in Hc.
  - destruct (add_hosts_step conv c st) as (Hnd1 & Hp1 & Hm1);
      [intros a; apply Hconv; left|done|].
    destruct (IH (snd (_add_hosts conv c st))) as (Hnd2 & Hp2 & Hm2);
      [intros c' a Hc'; apply Hconv; by right|done|].
    split; [done|]. split; [by etrans|].
    intros a. rewrite Hm2, Hm1. split.
    + intros [[H|H]|(c' & Hc' & Ha)].
      * by left.
      * right. exists c. split; [left|done].
      * right. exists c'. split; [by right|done].
    + intros [H|(c' & Hc' & Ha)]; [by do 2 left|].
      apply elem_of_cons in Hc' as [->|Hc']; [left; by right|].
      right. by exists c'.
Qed.

Lemma add_hosts_keeps_hosts_unique_witness :
  unique_hosts
    (add_all_hosts (λ a, a)
       [{| src := Some "10.0.0.1"; dst := Some "10.0.0.2";
           sport := None; dport := None |};
        {| src := None; dst := None; sport := None; dport := None |};
        {| src := Some "10.0.0.2"; dst := Some "10.0.0.2";
           sport := None; dport := None |}]%string init)
  = ["10.0.0.1"; "10.0.0.2"]%string ∧
  NoDup (unique_hosts
    (add_all_hosts (λ a, a)
       [{| src := Some "10.0.0.1"; dst := Some "10.0.0.2";
           sport := None; dport := None |};
        {| src := None; dst := None; sport := None; dport := None |};
        {| src := Some "10.0.0.2"; dst := Some "10.0.0.2";
           sport := None; dport := None |}]%string init)).
Proof.
  split; [reflexivity|].
  apply (add_hosts_keeps_hosts_unique (λ a, a)).
  - done.
  - constructor.
Defined.

Lemma re_search_app pat pre s :
  re_search pat s = true → re_search pat (pre +:+ s) = true.
Proof.
  intros H. induction pre as [|c pre IH]; simpl; [done|].
  change (pre ++ s)%string with (pre +:+ s). rewrite IH. apply orb_true_r.
Qed.

(** A name that holds [in-addr], any character but a line feed, and
    [arpa] in a row is matched by the reverse-lookup pattern. *)
Lemma in_addr_arpa_matches pre c post :
  c ≠ newline →
  re_search in_addr_arpa
    (pre +:+ "in-addr" +:+ String c ("arpa" +:+ post)) = true.
Proof.
  intros Hc. apply re_search_app.
  assert (Hm : re_match in_addr_arpa ("in-addr" +:+ String c ("arpa" +:+ post)) = true).
  { simpl. apply andb_true_iff. split; [|done].
    apply negb_true_iff, Ascii.eqb_neq. done. }
  destruct ("in-addr" +:+ String c ("arpa" +:+ post))%string; simpl in *;
    by rewrite Hm.
Qed.

Lemma add_dns_consistent w m st :
  dns_consistent st → dns_consistent (snd (_add_dns w m st)).
Proof.
  intros (Hsame & Hnd & Hok). unfold _add_dns.
  destruct (decode w m) as [[|name qs]|]; [done| |done].
  case_bool_decide as Hnew; [done|].
  destruct (re_search in_addr_arpa name) eqn:Hre; [done|].
  destruct (String.eqb_spec (strip name) "time.windows.com") as [|Htime]; [done|].
  split; [|split]; simpl.
  - rewrite fmap_app, Hsame. done.
  - apply NoDup_app. split; [done|]. split; [|apply NoDup_singleton].
    intros x Hx Hx'. apply list_elem_of_singleton in Hx' as ->. done.
  - intros n Hn. apply elem_of_app in Hn as [Hn|Hn]; [by apply Hok|].
    apply list_elem_of_singleton in Hn as ->. done.
Qed.

(** X22.  Through any run of DNS messages handled as [run] handles them,
    starting from lists that agree: the hostnames of [dns_requests] are
    the names of [dns_performed] in the same order, no name is recorded
    twice, and no recorded name is matched by the pattern [in-addr.arpa]
    (whose dot stands for any character but a line feed) or equals
    [time.windows.com] once surrounding white space is stripped. *)
Theorem dns_lists_stay_consistent w msgs st :
  dns_consistent st →
  dns_consistent (snd (add_all_dns w msgs st)) ∧
  ∀ name pre c post,
    name ∈ dns_performed (snd (add_all_dns w msgs st)) →
    c ≠ newline →
    name ≠ (pre +:+ "in-addr" +:+ String c ("arpa" +:+ post))%string.
Proof.
  intros Hst.
  assert (H : dns_consistent (snd (add_all_dns w msgs st))).
  { revert st Hst. induction msgs as [|m msgs IH]; intros st Hst; simpl; [done|].
    destruct (_check_dns w m); [|by apply IH].
    pose proof (add_dns_consistent w m st Hst) as Hst'.
    destruct (_add_dns w m st) as [[b|e] st']; simpl in *; [by apply IH|done]. }
  split; [done|]. intros name pre c post Hname Hc ->.
  destruct H as (_ & _ & Hok). destruct (Hok _ Hname) as [Hre _].
  by rewrite in_addr_arpa_matches in Hre.
Qed.

Lemma dns_lists_stay_consistent_witness :
  dns_consistent
    (snd (add_all_dns sample_world
            ["example.org"; "1.0.0.10.in-addr.arpa"; "example.org";
             " time.windows.com"; "unknown.invalid"]%string init)) ∧
  dns_requests
    (snd (add_all_dns sample_world
            ["example.org"; "1.0.0.10.in-addr.arpa"; "example.org";
             " time.windows.com"; "unknown.invalid"]%string init))
  = [{| hostname := "example.org"; ip := "93.184.216.34" |};
     {| hostname := "unknown.invalid"; ip := "" |}]%string.
Proof.
  split; [|reflexivity].
  apply (dns_lists_stay_consistent sample_world
           ["example.org"; "1.0.0.10.in-addr.arpa"; "example.org";
            " time.windows.com"; "unknown.invalid"]%string init).
  split; [done|]. split; [constructor|]. intros name H.
  by apply elem_of_nil in H.
Defined.

(** X23.  Handling the same DNS message a second time changes nothing and
    returns false: a name is resolved and recorded once at most. *)
Theorem add_dns_twice w m st b st' :
  _add_dns w m st = (Returned b, st') →
  _add_dns w m st' = (Returned false, st').
Proof.
  unfold _add_dns. destruct (decode w m) as [[|name qs]|]; [done| |done].
  case_bool_decide as Hnew.
  { intros [= <- <-]. by rewrite bool_decide_eq_true_2. }
  destruct (re_search in_addr_arpa name) eqn:Hre.
  { intros [= <- <-]. by rewrite bool_decide_eq_false_2. }
  destruct (String.eqb (strip name) "time.windows.com") eqn:Htime.
  { intros [= <- <-]. by rewrite bool_decide_eq_false_2. }
  intros [= <- <-]. simpl. rewrite bool_decide_eq_true_2; [done|].
  apply elem_of_app. right. left.
Qed.

Lemma add_dns_twice_witness :
  _add_dns sample_world "example.org"
           (snd (_add_dns sample_world "example.org" init))
  = (Returned false, snd (_add_dns sample_world "example.org" init)).
Proof.
  apply (add_dns_twice sample_world "example.org"%string init true).
  reflexivity.
Defined.

(** X24.  A DNS message that the decoder accepts but that has no question
    passes [_check_dns] and makes [_add_dns] raise [IndexError].  In a run
    of messages handled as [run] handles them, once the messages before it
    have been handled the run ends at such a message with the lists as
    those messages left them: the names asked for by the later messages
    are not recorded. *)
Theorem dns_message_without_question w before m later st :
  decode w m = Some [] →
  fst (add_all_dns w before st) = None →
  _check_dns w m = true ∧
  (∀ st', _add_dns w m st' = (Raised IndexError, st')) ∧
  add_all_dns w (before ++ m :: later) st
    = (Some IndexError, snd (add_all_dns w before st)).
Proof.
  intros Hm Hbefore.
  assert (Hcheck : _check_dns w m = true) by (unfold _check_dns; by rewrite Hm).
  assert (Hadd : ∀ st', _add_dns w m st' = (Raised IndexError, st'))
    by (intros st'; unfold _add_dns; by rewrite Hm).
  split; [done|]. split; [done|].
  revert st Hbefore. induction before as [|x before IH]; intros st Hbefore; simpl.
  - by rewrite Hcheck, Hadd.
  - simpl in Hbefore. destruct (_check_dns w x); [|by apply IH].
    destruct (_add_dns w x st) as [[b|e] st']; [by apply IH|done].
Qed.

Lemma dns_message_without_question_witness :
  _check_dns sample_world "" = true ∧
  (∀ st', _add_dns sample_world "" st' = (Raised IndexError, st')) ∧
  add_all_dns sample_world
    (["example.org"%string] ++ ""%string :: ["unknown.invalid"%string]) init
    = (Some IndexError,
       snd (add_all_dns sample_world ["example.org"%string] init)).
Proof.
  apply (dns_message_without_question sample_world ["example.org"%string]
           ""%string ["unknown.invalid"%string] init); reflexivity.
Defined.

End PcapFacts.
